(** * ConvertX-CN api-server: engine registry, conversion validation and job stores

    Shallow embedding of
    - [services/engine_registry.rs] ([Engine], [EngineRegistry]),
    - [services/dispatcher.rs] ([ConversionDispatcher] and its [JobStore]),
    - [models/job.rs] ([ConversionJob], [JobStatus]),
    - [job.rs] and [models.rs] (the async [JobStore] of [Job] records).

    Conventions of the embedding:
    - a Rust [HashMap] whose iteration order matters is a list in that
      iteration order (first match on lookup); one used only through
      [get]/[insert]/[remove] is a stdpp [gmap];
    - [Uuid] is a natural number, timestamps are integers ([Z]);
    - [Utc::now()] is an explicit argument [now] of each operation;
    - [str::to_lowercase] is ASCII lower-casing. It agrees with Rust's
      Unicode lower-casing on ASCII text only (Rust also maps, e.g., the
      Kelvin sign U+212A to 'k'). Statements that compare two strings
      through [to_lowercase] are stated with [to_lowercase] on both sides,
      not as "equal up to ASCII case";
    - [serde_json::Value] options are an opaque string blob. *)

From stdpp Require Import base gmap list strings sorting.
From Stdlib Require Import ZArith Lia Ascii.

Open Scope string_scope.

(* ------------------------------------------------------------------ *)
(** ** Lower-casing *)

Definition ascii_to_lowercase (c : ascii) : ascii :=
  let n := Ascii.nat_of_ascii c in
  if (65 <=? n)%nat && (n <=? 90)%nat then Ascii.ascii_of_nat (n + 32) else c.

(** [str::to_lowercase] restricted to ASCII: upper-case ASCII letters are
    lowered; every other byte is kept, whereas Rust also lowers non-ASCII
    letters. *)
Fixpoint to_lowercase (s : string) : string :=
  match s with
  | EmptyString => EmptyString
  | String c s' => String (ascii_to_lowercase c) (to_lowercase s')
  end.

(* ------------------------------------------------------------------ *)
(** ** services/engine_registry.rs *)

Module Registry.

(** [struct Engine]; [conversions] is the [HashMap<String, Vec<String>>]
    as an association list. *)
Record Engine := mkEngine {
  id : string;
  name : string;
  description : string;
  category : string;
  conversions : list (string * list string);
  available : bool
}.

(** [HashMap::get] on an association list. *)
Fixpoint map_get {V} (k : string) (m : list (string * V)) : option V :=
  match m with
  | [] => None
  | (k', v) :: m' => if String.eqb k' k then Some v else map_get k m'
  end.

(** [HashMap::insert]: replaces the value of an existing key, otherwise
    adds the key. *)
Fixpoint map_insert {V} (k : string) (v : V) (m : list (string * V))
  : list (string * V) :=
  match m with
  | [] => [(k, v)]
  | (k', v') :: m' =>
      if String.eqb k' k then (k, v) :: m' else (k', v') :: map_insert k v m'
  end.

(** [Vec::contains] on strings. *)
Definition contains (x : string) (l : list string) : bool :=
  existsb (String.eqb x) l.

(** [Engine::new] *)
Definition Engine_new (id name description category : string) : Engine :=
  mkEngine id name description category [] true.

(** [Engine::add_conversion] *)
Definition add_conversion (e : Engine) (from : string) (to_formats : list string)
  : Engine :=
  let from := to_lowercase from in
  let to := map to_lowercase to_formats in
  mkEngine (id e) (name e) (description e) (category e)
    (map_insert from to (conversions e)) (available e).

(** [Engine::supports_conversion] *)
Definition supports_conversion (e : Engine) (from to : string) : bool :=
  let from := to_lowercase from in
  let to := to_lowercase to in
  match map_get from (conversions e) with
  | Some outputs => contains to outputs
  | None => false
  end.

(** [Engine::output_formats_for] *)
Definition output_formats_for (e : Engine) (from : string) : list string :=
  let from := to_lowercase from in
  match map_get from (conversions e) with
  | Some outputs => outputs
  | None => []
  end.

(** [EngineRegistry]: the engines of the [HashMap<String, Engine>], keyed by
    their [id], listed in the map's iteration order ([engines.values()]). *)
Definition EngineRegistry := list Engine.

(** [EngineRegistry::get] *)
Definition get (reg : EngineRegistry) (engine_id : string) : option Engine :=
  List.find (fun e => String.eqb (id e) engine_id) reg.

(** [EngineRegistry::list] *)
Definition list_engines (reg : EngineRegistry) : list Engine := reg.

(** [EngineRegistry::find_engines_for] *)
Definition find_engines_for (reg : EngineRegistry) (from to : string)
  : list Engine :=
  List.filter (fun e => available e && supports_conversion e from to) reg.

(** [EngineRegistry::get_targets_for]; the resulting map is listed in
    insertion order. *)
Definition get_targets_for (reg : EngineRegistry) (from : string)
  : list (string * list string) :=
  let from := to_lowercase from in
  fold_left
    (fun result e =>
       match map_get from (conversions e) with
       | Some outputs =>
           match outputs with
           | [] => result
           | _ :: _ => map_insert (id e) outputs result
           end
       | None => result
       end)
    reg [].

(** [enum ValidationResult] *)
Inductive ValidationResult :=
| Valid (engine : string)
| Invalid (reason : string) (suggestions : list string).

(** [ConversionDispatcher::validate_conversion] *)
Definition validate_conversion (reg : EngineRegistry) (from to : string)
    (engine : option string) : ValidationResult :=
  match engine with
  | Some engine_id =>
      match get reg engine_id with
      | Some eng =>
          if supports_conversion eng from to then Valid engine_id
          else Invalid ("Engine '" ++ engine_id ++ "' does not support "
                          ++ from ++ " → " ++ to ++ " conversion")
                       (output_formats_for eng from)
      | None =>
          Invalid ("Engine '" ++ engine_id ++ "' not found")
                  (map id (list_engines reg))
      end
  | None =>
      match find_engines_for reg from to with
      | e :: _ => Valid (id e)
      | [] =>
          let targets := get_targets_for reg from in
          let all_outputs := concat (map snd targets) in
          Invalid ("No engine supports " ++ from ++ " → " ++ to ++ " conversion")
                  all_outputs
      end
  end.

End Registry.

(* ------------------------------------------------------------------ *)
(** ** models/job.rs and services/dispatcher.rs *)

Module Dispatcher.

(** [enum JobStatus] (models/job.rs) *)
Inductive JobStatus := Pending | Processing | Completed | Failed.

#[global] Instance JobStatus_eq_dec : EqDecision JobStatus.
Proof. solve_decision. Defined.

(** [struct ConversionJob]; [id] is the [Uuid], timestamps are [Z]. *)
Record ConversionJob := mkConversionJob {
  id : N;
  user_id : string;
  original_filename : string;
  source_format : string;
  target_format : string;
  engine : string;
  status : JobStatus;
  output_filename : option string;
  error_message : option string;
  created_at : Z;
  completed_at : option Z;
  options : option string
}.

(** [ConversionJob::new]; [new_id] is the value of [Uuid::new_v4()] and
    [now] the value of [Utc::now()]. *)
Definition ConversionJob_new (new_id : N) (now : Z) (user_id original_filename
    source_format target_format engine : string) (options : option string)
  : ConversionJob :=
  mkConversionJob new_id user_id original_filename source_format target_format
    engine Pending None None now None options.

(** Field assignments used by the mutating methods. *)
Definition with_status (j : ConversionJob) (s : JobStatus) : ConversionJob :=
  mkConversionJob (id j) (user_id j) (original_filename j) (source_format j)
    (target_format j) (engine j) s (output_filename j) (error_message j)
    (created_at j) (completed_at j) (options j).

Definition with_output_filename (j : ConversionJob) (o : option string)
  : ConversionJob :=
  mkConversionJob (id j) (user_id j) (original_filename j) (source_format j)
    (target_format j) (engine j) (status j) o (error_message j)
    (created_at j) (completed_at j) (options j).

Definition with_error_message (j : ConversionJob) (m : option string)
  : ConversionJob :=
  mkConversionJob (id j) (user_id j) (original_filename j) (source_format j)
    (target_format j) (engine j) (status j) (output_filename j) m
    (created_at j) (completed_at j) (options j).

Definition with_completed_at (j : ConversionJob) (t : option Z)
  : ConversionJob :=
  mkConversionJob (id j) (user_id j) (original_filename j) (source_format j)
    (target_format j) (engine j) (status j) (output_filename j)
    (error_message j) (created_at j) t (options j).

(** [ConversionJob::set_processing] *)
Definition set_processing (j : ConversionJob) : ConversionJob :=
  with_status j Processing.

(** [ConversionJob::set_completed] *)
Definition set_completed (now : Z) (j : ConversionJob) (out : string)
  : ConversionJob :=
  let j := with_status j Completed in
  let j := with_output_filename j (Some out) in
  with_completed_at j (Some now).

(** [ConversionJob::set_failed] *)
Definition set_failed (now : Z) (j : ConversionJob) (msg : string)
  : ConversionJob :=
  let j := with_status j Failed in
  let j := with_error_message j (Some msg) in
  with_completed_at j (Some now).

(** [struct JobStore] of the dispatcher. *)
Record JobStore := mkJobStore {
  jobs : gmap N ConversionJob;
  user_jobs : gmap string (list N)
}.

Definition empty_store : JobStore := mkJobStore ∅ ∅.

(** [ConversionDispatcher::create_job] *)
Definition create_job (st : JobStore) (new_id : N) (now : Z)
    (uid original_filename source_format target_format engine : string)
    (options : option string) : ConversionJob * JobStore :=
  let job := ConversionJob_new new_id now uid original_filename source_format
               target_format engine options in
  let job_id := id job in
  let jobs' := <[job_id := job]> (jobs st) in
  let ids := default [] (user_jobs st !! uid) in
  let user_jobs' := <[uid := (ids ++ [job_id])%list]> (user_jobs st) in
  (job, mkJobStore jobs' user_jobs').

(** [ConversionDispatcher::get_job] *)
Definition get_job (st : JobStore) (job_id : N) : option ConversionJob :=
  jobs st !! job_id.

(** [ConversionDispatcher::get_user_job] *)
Definition get_user_job (st : JobStore) (job_id : N) (uid : string)
  : option ConversionJob :=
  match jobs st !! job_id with
  | Some j => if String.eqb (user_id j) uid then Some j else None
  | None => None
  end.

(** [ConversionDispatcher::list_user_jobs] *)
Definition list_user_jobs (st : JobStore) (uid : string) : list ConversionJob :=
  match user_jobs st !! uid with
  | Some ids => omap (fun i => jobs st !! i) ids
  | None => []
  end.

(** In-place update of an existing job: [if let Some(job) = get_mut(..)]. *)
Definition update_in (st : JobStore) (job_id : N)
    (f : ConversionJob -> ConversionJob) : JobStore :=
  match jobs st !! job_id with
  | Some j => mkJobStore (<[job_id := f j]> (jobs st)) (user_jobs st)
  | None => st
  end.

(** [ConversionDispatcher::update_job_status] *)
Definition update_job_status (st : JobStore) (job_id : N) (s : JobStatus)
    (now : Z) : JobStore :=
  update_in st job_id (fun j =>
    let j := with_status j s in
    match s with
    | Completed | Failed => with_completed_at j (Some now)
    | _ => j
    end).

(** [ConversionDispatcher::complete_job] *)
Definition complete_job (st : JobStore) (job_id : N) (out : string) (now : Z)
  : JobStore :=
  update_in st job_id (fun j => set_completed now j out).

(** [ConversionDispatcher::fail_job] *)
Definition fail_job (st : JobStore) (job_id : N) (msg : string) (now : Z)
  : JobStore :=
  update_in st job_id (fun j => set_failed now j msg).

(** [ConversionDispatcher::delete_job] *)
Definition delete_job (st : JobStore) (job_id : N) (uid : string)
  : bool * JobStore :=
  match jobs st !! job_id with
  | None => (false, st)
  | Some j =>
      if negb (String.eqb (user_id j) uid) then (false, st)
      else
        let jobs' := delete job_id (jobs st) in
        let user_jobs' :=
          match user_jobs st !! uid with
          | Some ids =>
              <[uid := List.filter (fun i => negb (N.eqb i job_id)) ids]>
                (user_jobs st)
          | None => user_jobs st
          end in
        (true, mkJobStore jobs' user_jobs')
  end.

(** Consistency of the owner index [user_jobs] with the primary map [jobs]:
    every indexed id names a job of that user, and every job is indexed
    under its own user. *)
Definition index_consistent (st : JobStore) : Prop :=
  (forall u ids i, user_jobs st !! u = Some ids -> i ∈ ids ->
     exists j, jobs st !! i = Some j /\ user_id j = u) /\
  (forall i j, jobs st !! i = Some j ->
     exists ids, user_jobs st !! user_id j = Some ids /\ i ∈ ids).

(** Stores reachable from [JobStore::default()] through the dispatcher's
    mutating operations; [Uuid::new_v4()] yields an id not in use. *)
Inductive reachable : JobStore -> Prop :=
| reach_empty : reachable empty_store
| reach_create st new_id now uid ofn sf tf eng opts :
    reachable st -> jobs st !! new_id = None ->
    reachable (create_job st new_id now uid ofn sf tf eng opts).2
| reach_update st jid s now :
    reachable st -> reachable (update_job_status st jid s now)
| reach_complete st jid out now :
    reachable st -> reachable (complete_job st jid out now)
| reach_fail st jid msg now :
    reachable st -> reachable (fail_job st jid msg now)
| reach_delete st jid uid :
    reachable st -> reachable (delete_job st jid uid).2.

End Dispatcher.

(* ------------------------------------------------------------------ *)
(** ** models.rs and job.rs (the async [JobStore] used by the handlers) *)

Module JobRs.

Import Dispatcher.

(** [struct Job] (models.rs); [progress] is a [u8] in [0, 255]. *)
Record Job := mkJob {
  job_id : string;
  user_id : string;
  original_filename : string;
  input_format : string;
  output_format : string;
  engine_id : string;
  status : JobStatus;
  progress : Z;
  error_message : option string;
  output_file : option string;
  created_at : Z;
  updated_at : Z;
  completed_at : option Z
}.

(** [JobStore] of job.rs: [HashMap<String, Job>]. *)
Abbreviation JobStore := (gmap string Job).

(** Two's-complement wrap-around of an [i64] result (release build). *)
Definition wrap_i64 (z : Z) : Z :=
  let m := (z mod 2 ^ 64)%Z in
  if (2 ^ 63 <=? m)%Z then (m - 2 ^ 64)%Z else m.

(** Job-field assignments. *)
Definition set_fields (j : Job) (s : JobStatus) (p : Z) (err out : option string)
    (upd : Z) (comp : option Z) : Job :=
  mkJob (job_id j) (user_id j) (original_filename j) (input_format j)
    (output_format j) (engine_id j) s p err out (created_at j) upd comp.

(** [JobStore::update_status] *)
Definition update_status (jobs : JobStore) (jid : string) (s : JobStatus)
    (now : Z) : option Job * JobStore :=
  match jobs !! jid with
  | Some j =>
      let comp := if decide (s = Completed) then Some now else completed_at j in
      let j' := set_fields j s (progress j) (error_message j) (output_file j)
                  now comp in
      (Some j', <[jid := j']> jobs)
  | None => (None, jobs)
  end.

(** [JobStore::update_progress]: [progress.min(100)] *)
Definition update_progress (jobs : JobStore) (jid : string) (p : Z) (now : Z)
  : option Job * JobStore :=
  match jobs !! jid with
  | Some j =>
      let j' := set_fields j (status j) (Z.min p 100%Z) (error_message j)
                  (output_file j) now (completed_at j) in
      (Some j', <[jid := j']> jobs)
  | None => (None, jobs)
  end.

(** [JobStore::complete_job] *)
Definition complete_job (jobs : JobStore) (jid : string) (out : string) (now : Z)
  : option Job * JobStore :=
  match jobs !! jid with
  | Some j =>
      let j' := set_fields j Completed 100%Z (error_message j) (Some out)
                  now (Some now) in
      (Some j', <[jid := j']> jobs)
  | None => (None, jobs)
  end.

(** [JobStore::fail_job] *)
Definition fail_job (jobs : JobStore) (jid : string) (msg : string) (now : Z)
  : option Job * JobStore :=
  match jobs !! jid with
  | Some j =>
      let j' := set_fields j Failed (progress j) (Some msg) (output_file j)
                  now (completed_at j) in
      (Some j', <[jid := j']> jobs)
  | None => (None, jobs)
  end.

(** The cutoff of [JobStore::cleanup_old_jobs]: [now - (hours * 3600)]
    in [i64] arithmetic. *)
Definition cutoff_of (now hours : Z) : Z :=
  wrap_i64 (now - wrap_i64 (hours * 3600))%Z.

(** [JobStore::cleanup_old_jobs]; [map_to_list] is the iteration order of
    [jobs.iter()]. Returns the count and the new store. *)
Definition cleanup_old_jobs (jobs : JobStore) (hours : Z) (now : Z)
  : nat * JobStore :=
  let cutoff := cutoff_of now hours in
  let old_jobs :=
    map fst (List.filter (fun '(_, j) => bool_decide (created_at j < cutoff)%Z)
                         (map_to_list jobs)) in
  let count := length old_jobs in
  let jobs' := foldl (fun m k => delete k m) jobs old_jobs in
  (count, jobs').

End JobRs.

(* ------------------------------------------------------------------ *)
(** ** Concrete registries used as test inputs *)

Module Samples.

Import Registry.

(** [Engine] with [available] cleared. *)
Definition disable (e : Engine) : Engine :=
  mkEngine (id e) (name e) (description e) (category e) (conversions e) false.

(** The spec's scenario engine: "pandoc" with [md -> [html, pdf]]. *)
Definition pandoc : Engine :=
  add_conversion (Engine_new "pandoc" "Pandoc" "Document conversion" "document")
    "md" ["html"; "pdf"].

(** Two engines with the same capabilities. *)
Definition alpha : Engine :=
  add_conversion (Engine_new "alpha" "Alpha" "Markdown renderer" "document")
    "md" ["html"; "pdf"].

Definition beta : Engine :=
  add_conversion (Engine_new "beta" "Beta" "Markdown renderer" "document")
    "md" ["html"; "pdf"].

(** A dispatcher store with one job (id 1) created by "alice" at time 0. *)
Definition st_alice : Dispatcher.JobStore :=
  (Dispatcher.create_job Dispatcher.empty_store 1%N 0%Z "alice" "report.md"
     "md" "pdf" "pandoc" None).2.

(** The spec's scenario: the job fails with "backend timeout" at time 10,
    then a completion with "out.pdf" arrives at time 20. *)
Definition st_failed : Dispatcher.JobStore :=
  Dispatcher.fail_job st_alice 1%N "backend timeout" 10%Z.

Definition st_failed_then_completed : Dispatcher.JobStore :=
  Dispatcher.complete_job st_failed 1%N "out.pdf" 20%Z.

(** The job completes at time 20, then a failure arrives at time 30. *)
Definition st_completed : Dispatcher.JobStore :=
  Dispatcher.complete_job st_alice 1%N "out.pdf" 20%Z.

Definition st_completed_then_failed : Dispatcher.JobStore :=
  Dispatcher.fail_job st_completed 1%N "late failure" 30%Z.

(** A job.rs [Job] of "alice" created at time [t]. *)
Definition job_at (jid : string) (t : Z) : JobRs.Job :=
  JobRs.mkJob jid "alice" "report.md" "md" "pdf" "pandoc" Dispatcher.Pending
    0%Z None None t t None.

(** Current time of the sweep scenarios. *)
Definition sweep_now : Z := 1000000%Z.

(** One job created 25 hours ago and one created 1 hour ago. *)
Definition sweep_jobs : JobRs.JobStore :=
  <["old" := job_at "old" (sweep_now - 25 * 3600)%Z]>
    (<["young" := job_at "young" (sweep_now - 3600)%Z]> ∅).

End Samples.

(* ------------------------------------------------------------------ *)
(** ** More of services/engine_registry.rs *)

Module RegistryOps.

Import Registry.

(** [Vec<String>::sort]: byte-wise lexicographic order; any sort yields
    the same list for a total order on strings. *)
Definition sort_strings (l : list string) : list string :=
  merge_sort String.le l.

(** [Vec::dedup]: removes consecutive repeated elements. *)
Fixpoint dedup (l : list string) : list string :=
  match l with
  | [] => []
  | x :: l' =>
      match l' with
      | [] => [x]
      | y :: _ => if String.eqb x y then dedup l' else x :: dedup l'
      end
  end.

(** [Engine::input_formats]: the keys of [conversions]. *)
Definition input_formats (e : Engine) : list string :=
  map fst (conversions e).

(** [Engine::output_formats] *)
Definition output_formats (e : Engine) : list string :=
  dedup (sort_strings (concat (map snd (conversions e)))).

(** [Engine::get_conversions]: one [(from, to)] pair per listed output. *)
Definition get_conversions (e : Engine) : list (string * string) :=
  concat (map (fun '(from, tos) => map (fun to => (from, to)) tos)
              (conversions e)).

(** [EngineRegistry::register]: [engines.insert(engine.id.clone(), engine)]. *)
Fixpoint register (reg : EngineRegistry) (e : Engine) : EngineRegistry :=
  match reg with
  | [] => [e]
  | e' :: reg' =>
      if String.eqb (id e') (id e) then e :: reg' else e' :: register reg' e
  end.

(** [EngineRegistry::all_input_formats] *)
Definition all_input_formats (reg : EngineRegistry) : list string :=
  dedup (sort_strings (concat (map input_formats reg))).

(** [EngineRegistry::all_output_formats] *)
Definition all_output_formats (reg : EngineRegistry) : list string :=
  dedup (sort_strings (concat (map output_formats reg))).

End RegistryOps.

(* ------------------------------------------------------------------ *)
(** ** More of job.rs *)

Module JobRsOps.

Import Dispatcher JobRs.

(** [Job::new] (models.rs); [new_id] is [Uuid::new_v4().to_string()]. *)
Definition Job_new (new_id : string) (now : Z)
    (uid original_filename input_format output_format engine_id : string) : Job :=
  mkJob new_id uid original_filename input_format output_format engine_id
    Pending 0 None None now now None.

(** [JobStore::create_job] *)
Definition create_job (jobs : JobStore) (job : Job) : Job * JobStore :=
  (job, <[job_id job := job]> jobs).

(** [JobStore::get_job] *)
Definition get_job (jobs : JobStore) (jid : string) : option Job := jobs !! jid.

(** [JobStore::get_user_jobs]: [jobs.values()] filtered by owner. *)
Definition get_user_jobs (jobs : JobStore) (uid : string) : list Job :=
  List.filter (fun j => String.eqb (user_id j) uid) (map snd (map_to_list jobs)).

(** [JobStore::is_job_owner] *)
Definition is_job_owner (jobs : JobStore) (jid uid : string) : bool :=
  match jobs !! jid with
  | Some j => String.eqb (user_id j) uid
  | None => false
  end.

(** Outcome of the conversion step of [process_conversion]: the output
    file, or the message of the error (output directory or backend). *)
Inductive ConversionOutcome :=
| ConvOk (output_file : string)
| ConvErr (message : string).

(** [process_conversion] (handlers.rs) as a sequence of store updates;
    [t1], [t2], [t3] are the successive values of [Utc::now()]. *)
Definition process_conversion (jobs : JobStore) (jid : string)
    (outcome : ConversionOutcome) (t1 t2 t3 : Z) : JobStore :=
  let jobs := (update_status jobs jid Processing t1).2 in
  let jobs := (update_progress jobs jid 10 t2).2 in
  match outcome with
  | ConvOk out => (complete_job jobs jid out t3).2
  | ConvErr msg => (fail_job jobs jid msg t3).2
  end.

End JobRsOps.

(* ------------------------------------------------------------------ *)
(** ** engine.rs (the engine registry used by handlers.rs) *)

Module EngineRs.

(** [struct Engine] of engine.rs. *)
Record Engine := mkEngine {
  engine_id : string;
  engine_name : string;
  description : string;
  enabled : bool;
  input_formats : list string;
  output_formats : list string;
  max_file_size_mb : Z;
  requires_params : bool;
  params_schema : option string
}.

(** [str::eq_ignore_ascii_case] *)
Definition eq_ignore_ascii_case (a b : string) : bool :=
  String.eqb (to_lowercase a) (to_lowercase b).

(** [Engine::supports_conversion] of engine.rs *)
Definition supports_conversion (e : Engine) (input output : string) : bool :=
  if negb (enabled e) then false
  else existsb (fun f => eq_ignore_ascii_case f input) (input_formats e)
       && existsb (fun f => eq_ignore_ascii_case f output) (output_formats e).

(** [EngineRegistry] of engine.rs: the map's values in iteration order. *)
Definition EngineRegistry := list Engine.

(** Comparison of [list_engines]: [a.engine_id.cmp(&b.engine_id)]. *)
Definition id_le (a b : Engine) : Prop := String.le (engine_id a) (engine_id b).

#[global] Instance id_le_dec : RelDecision id_le.
Proof. intros a b. unfold id_le. apply _. Defined.

(** [EngineRegistry::list_engines] *)
Definition list_engines (reg : EngineRegistry) : list Engine :=
  merge_sort id_le reg.

(** [EngineRegistry::get_engine] *)
Definition get_engine (reg : EngineRegistry) (eid : string) : option Engine :=
  List.find (fun e => String.eqb (engine_id e) eid) reg.

(** [EngineRegistry::is_engine_available] *)
Definition is_engine_available (reg : EngineRegistry) (eid : string) : bool :=
  match get_engine reg eid with
  | Some e => enabled e
  | None => false
  end.

(** [EngineRegistry::find_engine_for_conversion] *)
Definition find_engine_for_conversion (reg : EngineRegistry) (input output : string)
  : option Engine :=
  List.find (fun e => supports_conversion e input output) reg.

End EngineRs.

(* ------------------------------------------------------------------ *)
(** ** handlers.rs and routes/jobs.rs *)

Module Handlers.

Import Dispatcher JobRs.

(** The variants of [ApiError] these handlers produce. *)
Inductive ApiError :=
| Forbidden (msg : string)
| EngineNotFound (eid : string)
| UnsupportedConversion (from to : string)
| JobNotFound (jid : string)
| JobNotReady (jid : string)
| InternalError (msg : string).

(** Engine selection of [convert] (handlers.rs). *)
Definition select_engine (reg : EngineRs.EngineRegistry) (input_format output_format : string)
    (engine : option string) : string + ApiError :=
  match engine with
  | Some eid =>
      match EngineRs.get_engine reg eid with
      | None => inr (EngineNotFound eid)
      | Some e =>
          if negb (EngineRs.supports_conversion e input_format output_format)
          then inr (UnsupportedConversion input_format output_format)
          else inl eid
      end
  | None =>
      match EngineRs.find_engine_for_conversion reg input_format output_format with
      | Some e => inl (EngineRs.engine_id e)
      | None => inr (UnsupportedConversion input_format output_format)
      end
  end.

(** [get_job_status] (handlers.rs) *)
Definition get_job_status (jobs : JobStore) (uid jid : string) : Job + ApiError :=
  match jobs !! jid with
  | None => inr (JobNotFound jid)
  | Some job =>
      if negb (String.eqb (user_id job) uid)
      then inr (Forbidden "Not authorized to access this job")
      else inl job
  end.

(** The checks of [download_job_result] (handlers.rs) before the archive
    is built; [can_download] is [user.can_download()]. Returns the output
    file to archive. *)
Definition download_checks (jobs : JobStore) (can_download : bool) (uid jid : string)
  : string + ApiError :=
  if negb can_download then inr (Forbidden "Missing 'download' scope") else
  match jobs !! jid with
  | None => inr (JobNotFound jid)
  | Some job =>
      if negb (String.eqb (user_id job) uid)
      then inr (Forbidden "Not authorized to access this job")
      else if negb (bool_decide (status job = Completed)) then inr (JobNotReady jid)
      else match output_file job with
           | Some f => inl f
           | None => inr (InternalError "Output file not found")
           end
  end.

(** [str::rsplit('.').next()]: the text after the last ['.'], or the whole
    string when it has none; [acc] is the segment read since the last dot. *)
Fixpoint last_segment_from (s acc : string) : string :=
  match s with
  | EmptyString => acc
  | String c s' =>
      if Ascii.eqb c "."%char then last_segment_from s' EmptyString
      else last_segment_from s' (acc ++ String c EmptyString)
  end.

Definition last_segment (s : string) : string := last_segment_from s EmptyString.

(** The source format of [create_job] (routes/jobs.rs):
    [filename.rsplit('.').next().unwrap_or("").to_lowercase()]. *)
Definition source_format_of (filename : string) : string :=
  to_lowercase (last_segment filename).

End Handlers.

(* ================================================================== *)
(** * Properties of the engine registry and of [validate_conversion] *)

Module RegistryFacts.

Import Registry.

(** Lower-casing is idempotent. *)
Lemma ascii_to_lowercase_idem (c : ascii) :
  ascii_to_lowercase (ascii_to_lowercase c) = ascii_to_lowercase c.
Proof. destruct c as [[] [] [] [] [] [] [] []]; reflexivity. Qed.

Lemma to_lowercase_idem (s : string) :
  to_lowercase (to_lowercase s) = to_lowercase s.
Proof.
  induction s as [|c s IH]; simpl; [done|].
  by rewrite ascii_to_lowercase_idem, IH.
Qed.

Lemma contains_spec (x : string) (l : list string) :
  contains x l = true <-> x ∈ l.
Proof.
  unfold contains. rewrite existsb_exists, list_elem_of_In. split.
  - intros (y & Hy & Heq). apply String.eqb_eq in Heq. by subst.
  - intros Hx. exists x. split; [done|]. apply String.eqb_refl.
Qed.

(** C6: for every engine [e] and format tokens [a], [b],
    [supports_conversion e a b] holds iff the lower-cased [b] is a member of
    [output_formats_for e a]; both operations are insensitive to the case
    of their format arguments, e.g. ("PDF", "Docx") and ("pdf", "docx")
    give the same answer. *)
Theorem supports_iff_member_of_outputs (e : Engine) (a b : string) :
  (supports_conversion e a b = true <-> to_lowercase b ∈ output_formats_for e a) /\
  supports_conversion e a b =
    supports_conversion e (to_lowercase a) (to_lowercase b) /\
  output_formats_for e a = output_formats_for e (to_lowercase a) /\
  supports_conversion e "PDF" "Docx" = supports_conversion e "pdf" "docx".
Proof.
  unfold supports_conversion, output_formats_for.
  rewrite !to_lowercase_idem. split; [|split; [done|split; [done|done]]].
  destruct (map_get (to_lowercase a) (conversions e)) as [outs|].
  - apply contains_spec.
  - split; [discriminate|]. intros H. by apply not_elem_of_nil in H.
Qed.

Lemma filter_first {A} (f : A -> bool) (l rest : list A) (x : A) :
  List.filter f l = x :: rest <->
  exists l1 l2, l = (l1 ++ x :: l2)%list /\ f x = true /\
    Forall (fun y => f y = false) l1 /\ rest = List.filter f l2.
Proof.
  revert rest. induction l as [|y l IH]; intros rest; simpl.
  - split; [discriminate|]. intros (l1 & l2 & Hl & _).
    by destruct l1 in Hl.
  - destruct (f y) eqn:Hy.
    + split.
      * intros [= <- <-]. exists [], l. by repeat split.
      * intros ([|z l1] & l2 & Hl & Hx & Hall & Hr); simpl in Hl; injection Hl as -> ->.
        -- by subst.
        -- apply Forall_cons in Hall as [Hz _]. congruence.
    + rewrite IH. split.
      * intros (l1 & l2 & -> & Hx & Hall & Hr).
        exists (y :: l1), l2. repeat split; [done|constructor; done|done].
      * intros ([|z l1] & l2 & Hl & Hx & Hall & Hr); simpl in Hl; injection Hl as -> ->.
        -- congruence.
        -- apply Forall_cons in Hall as [_ Hall]. by exists l1, l2.
Qed.

(** C3 (counterexample): the same two engines, both able to convert
    [md -> pdf], listed in two iteration orders of the registry map, make
    [validate_conversion] without a preferred engine choose different
    engines; in the second order the chosen id is not the smallest. *)
Lemma resolve_depends_on_iteration_order :
  Permutation [Samples.alpha; Samples.beta] [Samples.beta; Samples.alpha] /\
  validate_conversion [Samples.alpha; Samples.beta] "md" "pdf" None
    = Valid "alpha" /\
  validate_conversion [Samples.beta; Samples.alpha] "md" "pdf" None
    = Valid "beta" /\
  String.ltb "alpha" "beta" = true.
Proof.
  split; [apply Permutation_swap|]. split; [reflexivity|].
  split; reflexivity.
Qed.

(** C3 (amended): without a preferred engine, [validate_conversion] is a
    function of the registry listed in its iteration order: it returns
    [Valid x] exactly when [x] is the id of the first engine in that order
    that is available and supports the conversion. *)
Theorem resolve_first_in_iteration_order (reg : EngineRegistry)
    (from to x : string) :
  validate_conversion reg from to None = Valid x <->
  exists l1 e l2, reg = (l1 ++ e :: l2)%list /\ id e = x /\
    available e && supports_conversion e from to = true /\
    Forall (fun e' => available e' && supports_conversion e' from to = false) l1.
Proof.
  unfold validate_conversion, find_engines_for.
  split.
  - destruct (List.filter _ reg) as [|e rest] eqn:Hf; [discriminate|].
    intros [= <-]. apply filter_first in Hf as (l1 & l2 & Hl & He & Hall & _).
    by exists l1, e, l2.
  - intros (l1 & e & l2 & Hl & <- & He & Hall).
    assert (Hf : List.filter (fun e => available e && supports_conversion e from to) reg
                 = e :: List.filter (fun e => available e && supports_conversion e from to) l2).
    { apply filter_first. by exists l1, l2. }
    by rewrite Hf.
Qed.

(** C4: a disabled engine named as the preferred engine is accepted:
    [validate_conversion] returns [Valid] for it, while the search without
    a preference ([find_engines_for]) skips it. *)
Theorem disabled_preferred_engine_accepted :
  available (Samples.disable Samples.pandoc) = false /\
  supports_conversion (Samples.disable Samples.pandoc) "md" "pdf" = true /\
  validate_conversion [Samples.disable Samples.pandoc] "md" "pdf" (Some "pandoc")
    = Valid "pandoc" /\
  find_engines_for [Samples.disable Samples.pandoc] "md" "pdf" = [].
Proof. repeat split; reflexivity. Qed.

(** C5: when two engines accept [md] with the same outputs and none
    converts [md -> docx], the suggestions of the [Invalid] result list
    every shared output twice: they are not de-duplicated. *)
Theorem no_engine_suggestions_not_deduplicated :
  validate_conversion [Samples.alpha; Samples.beta] "md" "docx" None
    = Invalid "No engine supports md → docx conversion"
              ["html"; "pdf"; "html"; "pdf"] /\
  ~ NoDup ["html"; "pdf"; "html"; "pdf"].
Proof.
  split; [reflexivity|]. intros Hnd.
  apply NoDup_cons in Hnd as [Hn _]. apply Hn. set_solver.
Qed.

End RegistryFacts.

(* ================================================================== *)
(** * Properties of the dispatcher's job store *)

Module DispatcherFacts.

Import Dispatcher.

Lemma retain_elem (ids : list N) (jid i : N) :
  i ∈ List.filter (fun x => negb (N.eqb x jid)) ids <-> i <> jid /\ i ∈ ids.
Proof.
  rewrite !list_elem_of_In, filter_In, negb_true_iff, N.eqb_neq. tauto.
Qed.

(** [update_in] keeps the owner index consistent when the update keeps the
    job's [user_id]. *)
Lemma update_in_consistent (st : JobStore) (jid : N) f :
  (forall j, user_id (f j) = user_id j) ->
  index_consistent st -> index_consistent (update_in st jid f).
Proof.
  intros Hf [H1 H2]. unfold update_in.
  destruct (jobs st !! jid) as [j|] eqn:Hj; [|by split]. split; simpl.
  - intros u ids i Hu Hi. destruct (H1 u ids i Hu Hi) as (j0 & Hj0 & Hu0).
    destruct (decide (jid = i)) as [<-|Hne].
    + rewrite lookup_insert_eq. exists (f j). rewrite Hf. split; [done|].
      congruence.
    + rewrite lookup_insert_ne by done. eauto.
  - intros i j' Hi. destruct (decide (jid = i)) as [<-|Hne].
    + rewrite lookup_insert_eq in Hi. injection Hi as <-. rewrite Hf. eauto.
    + rewrite lookup_insert_ne in Hi by done. eauto.
Qed.

Lemma create_job_consistent (st : JobStore) new_id now uid ofn sf tf eng opts :
  jobs st !! new_id = None -> index_consistent st ->
  index_consistent (create_job st new_id now uid ofn sf tf eng opts).2.
Proof.
  intros Hfresh [H1 H2]. unfold create_job; simpl. split; simpl.
  - intros u ids i Hu Hi.
    destruct (decide (uid = u)) as [<-|Hne].
    + rewrite lookup_insert_eq in Hu. injection Hu as <-.
      apply elem_of_app in Hi as [Hi|Hi].
      * destruct (user_jobs st !! uid) as [old|] eqn:Hold; simpl in Hi;
          [|by apply not_elem_of_nil in Hi].
        destruct (H1 uid old i Hold Hi) as (j0 & Hj0 & Hu0).
        rewrite lookup_insert_ne by congruence. eauto.
      * apply list_elem_of_singleton in Hi as ->.
        rewrite lookup_insert_eq. eauto.
    + rewrite lookup_insert_ne in Hu by done.
      destruct (H1 u ids i Hu Hi) as (j0 & Hj0 & Hu0).
      rewrite lookup_insert_ne by congruence. eauto.
  - intros i j Hi. destruct (decide (new_id = i)) as [<-|Hne].
    + rewrite lookup_insert_eq in Hi. injection Hi as <-. simpl.
      rewrite lookup_insert_eq. eexists; split; [done|].
      apply elem_of_app. right. by apply list_elem_of_singleton.
    + rewrite lookup_insert_ne in Hi by done.
      destruct (H2 i j Hi) as (ids & Hids & Hin).
      destruct (decide (uid = user_id j)) as [Heq|Hne'].
      * rewrite Heq, lookup_insert_eq. eexists; split; [done|].
        apply elem_of_app. left. rewrite Hids. done.
      * rewrite lookup_insert_ne by done. eauto.
Qed.

Lemma delete_job_consistent (st : JobStore) jid uid :
  index_consistent st -> index_consistent (delete_job st jid uid).2.
Proof.
  intros [H1 H2]. unfold delete_job.
  destruct (jobs st !! jid) as [j|] eqn:Hj; [|by split].
  destruct (String.eqb (user_id j) uid) eqn:Hown; simpl; [|by split].
  apply String.eqb_eq in Hown. split; simpl.
  - intros u ids i Hu Hi.
    destruct (user_jobs st !! uid) as [old|] eqn:Hold.
    + destruct (decide (uid = u)) as [<-|Hne].
      * rewrite lookup_insert_eq in Hu. injection Hu as <-.
        apply retain_elem in Hi as [Hne Hi].
        destruct (H1 uid old i Hold Hi) as (j0 & Hj0 & Hu0).
        rewrite lookup_delete_ne by congruence. eauto.
      * rewrite lookup_insert_ne in Hu by done.
        destruct (H1 u ids i Hu Hi) as (j0 & Hj0 & Hu0).
        destruct (decide (jid = i)) as [<-|Hne'].
        -- congruence.
        -- rewrite lookup_delete_ne by done. eauto.
    + destruct (H1 u ids i Hu Hi) as (j0 & Hj0 & Hu0).
      destruct (decide (jid = i)) as [<-|Hne'].
      * subst. congruence.
      * rewrite lookup_delete_ne by done. eauto.
  - intros i j' Hi. destruct (decide (jid = i)) as [<-|Hne].
    + by rewrite lookup_delete_eq in Hi.
    + rewrite lookup_delete_ne in Hi by done.
      destruct (H2 i j' Hi) as (ids & Hids & Hin).
      destruct (user_jobs st !! uid) as [old|] eqn:Hold; [|eauto].
      destruct (decide (uid = user_id j')) as [Heq|Hne'].
      * rewrite Heq, lookup_insert_eq. eexists; split; [done|].
        apply retain_elem. split; [congruence|]. congruence.
      * rewrite lookup_insert_ne by done. eauto.
Qed.

Lemma user_id_set_completed now j out : user_id (set_completed now j out) = user_id j.
Proof. done. Qed.

Lemma user_id_set_failed now j msg : user_id (set_failed now j msg) = user_id j.
Proof. done. Qed.

(** C10: in every store reachable from the empty store through
    [create_job] (with a fresh id), [update_job_status], [complete_job],
    [fail_job] and [delete_job], each id listed in [user_jobs !! u] names a
    job of user [u] in [jobs], and each job of [jobs] is listed under its own
    [user_id]. *)
Theorem reachable_index_consistent (st : JobStore) :
  reachable st -> index_consistent st.
Proof.
  induction 1 as [| | st jid s now _ IH | st jid out now _ IH
                  | st jid msg now _ IH | st jid uid _ IH].
  - split; intros *; simpl; rewrite lookup_empty; discriminate.
  - by apply create_job_consistent.
  - apply update_in_consistent; [|done]. intros j. by destruct s.
  - by apply update_in_consistent.
  - by apply update_in_consistent.
  - by apply delete_job_consistent.
Qed.

(** Witness for C10: a store built by two creations, a failure and a
    deletion is reachable and its index is consistent. *)
Lemma reachable_index_consistent_witness :
  let st1 := (create_job empty_store 1%N 0%Z "alice" "a.md" "md" "pdf" "pandoc" None).2 in
  let st2 := (create_job st1 2%N 1%Z "bob" "b.png" "png" "jpg" "imagemagick" None).2 in
  let st3 := fail_job st2 2%N "backend timeout" 5%Z in
  let st4 := (delete_job st3 1%N "alice").2 in
  reachable st4 /\ index_consistent st4.
Proof.
  simpl.
  assert (Hr : reachable
    (delete_job (fail_job (create_job (create_job empty_store 1%N 0%Z "alice"
       "a.md" "md" "pdf" "pandoc" None).2 2%N 1%Z "bob" "b.png" "png" "jpg"
       "imagemagick" None).2 2%N "backend timeout" 5%Z) 1%N "alice").2).
  { apply reach_delete, reach_fail, reach_create; [apply reach_create|].
    - apply reach_empty.
    - reflexivity.
    - reflexivity. }
  split; [exact Hr|]. exact (reachable_index_consistent _ Hr).
Defined.

(** C7: [delete_job st id owner] returns [false] and leaves the store
    unchanged exactly when the job is missing or not created by [owner];
    when it returns [true] the record is gone from [jobs], [id] is no longer
    in [owner]'s index entry, every other record and index entry is kept,
    and a consistent index stays consistent (no record loses its index
    entry, no index entry is left stale). *)
Theorem delete_job_all_or_nothing (st : JobStore) (jid : N) (owner : string) :
  ((delete_job st jid owner).1 = false <->
     forall j, jobs st !! jid = Some j -> user_id j <> owner) /\
  ((delete_job st jid owner).1 = false -> (delete_job st jid owner).2 = st) /\
  ((delete_job st jid owner).1 = true ->
     jobs (delete_job st jid owner).2 !! jid = None /\
     (forall i, i <> jid -> jobs (delete_job st jid owner).2 !! i = jobs st !! i) /\
     (forall ids, user_jobs (delete_job st jid owner).2 !! owner = Some ids ->
        jid ∉ ids) /\
     (forall u, u <> owner ->
        user_jobs (delete_job st jid owner).2 !! u = user_jobs st !! u) /\
     (index_consistent st -> index_consistent (delete_job st jid owner).2)).
Proof.
  pose proof (delete_job_consistent st jid owner) as Hcons.
  unfold delete_job in *.
  destruct (jobs st !! jid) as [j|] eqn:Hj.
  - destruct (String.eqb (user_id j) owner) eqn:Hown; simpl in *.
    + apply String.eqb_eq in Hown. split; [|split; [discriminate|]].
      { split; [discriminate|]. intros H. by destruct (H j eq_refl). }
      intros _. split; [apply lookup_delete_eq|]. split.
      { intros i Hne. by apply lookup_delete_ne. }
      split; [|split; [|exact Hcons]].
      * destruct (user_jobs st !! owner) as [old|] eqn:Hold.
        -- rewrite lookup_insert_eq. intros ids [= <-] Hin.
           apply retain_elem in Hin as [Hne _]. done.
        -- rewrite Hold. discriminate.
      * intros u Hne. destruct (user_jobs st !! owner); [|done].
        by rewrite lookup_insert_ne by done.
    + apply String.eqb_neq in Hown. split; [|split; [done|discriminate]].
      split; [|done]. intros _ j' [= <-]. done.
  - simpl. split; [|split; [done|discriminate]]. split; [|done].
    intros _ j' Hj'. discriminate.
Qed.

(** Dispatcher part of C2: for a job created by another user,
    [get_user_job] returns [None], the same result as after the record is
    removed (a missing job). *)
Theorem get_user_job_hides_foreign_job (st : JobStore) (jid : N)
    (owner : string) (j : ConversionJob) :
  jobs st !! jid = Some j -> user_id j <> owner ->
  get_user_job st jid owner = None /\
  get_user_job st jid owner =
    get_user_job (mkJobStore (delete jid (jobs st)) (user_jobs st)) jid owner.
Proof.
  intros Hj Hne. unfold get_user_job. simpl. rewrite lookup_delete_eq, Hj.
  apply String.eqb_neq in Hne. rewrite Hne. done.
Qed.

(** Witness for the dispatcher part of C2: "bob" asks for the job of
    "alice". *)
Lemma get_user_job_hides_foreign_job_witness :
  jobs Samples.st_alice !! 1%N <> None /\
  get_user_job Samples.st_alice 1%N "bob" = None /\
  get_user_job Samples.st_alice 1%N "bob" =
    get_user_job (mkJobStore (delete 1%N (jobs Samples.st_alice))
                             (user_jobs Samples.st_alice)) 1%N "bob".
Proof.
  split; [vm_compute; discriminate|].
  destruct (jobs Samples.st_alice !! 1%N) as [j|] eqn:Hj;
    [|vm_compute in Hj; discriminate].
  apply (get_user_job_hides_foreign_job Samples.st_alice 1%N "bob" j Hj).
  vm_compute in Hj. injection Hj as <-. simpl. discriminate.
Defined.

(** C1 (counterexample): after [fail_job] has made the job [Failed], a later
    [complete_job] still changes it: the status becomes [Completed] and the
    output filename is set. *)
Lemma failed_job_changed_by_complete :
  option_map status (get_job Samples.st_failed 1%N) = Some Failed /\
  option_map output_filename (get_job Samples.st_failed 1%N) = Some None /\
  option_map status (get_job Samples.st_failed_then_completed 1%N)
    = Some Completed /\
  option_map output_filename (get_job Samples.st_failed_then_completed 1%N)
    = Some (Some "out.pdf").
Proof. vm_compute. repeat split. Qed.

(** C1 (amended): the transitions are not guarded by the current status.
    On an existing job, whatever its status, [update_job_status] sets the
    given status, [complete_job] sets [Completed] and the output filename,
    [fail_job] sets [Failed] and the error message; on a missing id each
    leaves the store unchanged. The same holds for the job.rs store's
    [update_status], [complete_job], [fail_job], and [update_progress]
    sets the progress to [min p 100]. *)
Theorem transitions_apply_in_any_status (st : JobStore) (jid : N)
    (s : JobStatus) (out msg : string) (now : Z)
    (jst : JobRs.JobStore) (sid : string) (p : Z) :
  match jobs st !! jid with
  | Some _ =>
      option_map status (jobs (update_job_status st jid s now) !! jid) = Some s /\
      option_map (fun j => (status j, output_filename j))
        (jobs (complete_job st jid out now) !! jid) = Some (Completed, Some out) /\
      option_map (fun j => (status j, error_message j))
        (jobs (fail_job st jid msg now) !! jid) = Some (Failed, Some msg)
  | None =>
      update_job_status st jid s now = st /\ complete_job st jid out now = st /\
      fail_job st jid msg now = st
  end /\
  match jst !! sid with
  | Some _ =>
      option_map JobRs.status ((JobRs.update_status jst sid s now).2 !! sid)
        = Some s /\
      option_map (fun j => (JobRs.status j, JobRs.output_file j))
        ((JobRs.complete_job jst sid out now).2 !! sid)
        = Some (Completed, Some out) /\
      option_map (fun j => (JobRs.status j, JobRs.error_message j))
        ((JobRs.fail_job jst sid msg now).2 !! sid) = Some (Failed, Some msg) /\
      option_map JobRs.progress ((JobRs.update_progress jst sid p now).2 !! sid)
        = Some (Z.min p 100)
  | None =>
      (JobRs.update_status jst sid s now).2 = jst /\
      (JobRs.complete_job jst sid out now).2 = jst /\
      (JobRs.fail_job jst sid msg now).2 = jst /\
      (JobRs.update_progress jst sid p now).2 = jst
  end.
Proof.
  split.
  - unfold update_job_status, complete_job, fail_job, update_in.
    destruct (jobs st !! jid) as [j|] eqn:Hj; [|done].
    simpl. rewrite !lookup_insert_eq. simpl. split; [|done]. by destruct s.
  - unfold JobRs.update_status, JobRs.complete_job, JobRs.fail_job,
      JobRs.update_progress.
    destruct (jst !! sid) as [j|] eqn:Hj; [|done].
    simpl. by rewrite !lookup_insert_eq.
Qed.

(** C8 (counterexample): in the dispatcher, a job completed at time 20
    that then fails at time 30 ends with [completed_at = Some 30]: the first
    value is overwritten. In the job.rs store, a job that fails at time 10
    is [Failed] with no [completed_at]: the transition to [Failed] does not
    set it. *)
Lemma completed_at_overwritten_by_later_fail :
  option_map completed_at (get_job Samples.st_completed 1%N) = Some (Some 20%Z) /\
  option_map completed_at (get_job Samples.st_completed_then_failed 1%N)
    = Some (Some 30%Z) /\
  option_map JobRs.status
    ((JobRs.fail_job (<["j" := Samples.job_at "j" 0%Z]> ∅) "j"
        "backend timeout" 10%Z).2 !! "j") = Some Failed /\
  option_map JobRs.completed_at
    ((JobRs.fail_job (<["j" := Samples.job_at "j" 0%Z]> ∅) "j"
        "backend timeout" 10%Z).2 !! "j") = Some None.
Proof. vm_compute. repeat split. Qed.

(** C8 (amended): [completed_at] is [None] at creation in both stores.
    In the dispatcher, every [complete_job] or [fail_job] on an existing
    job, and every [update_job_status] to [Completed] or [Failed], sets it
    to the current time whatever its previous value; [update_job_status] to
    [Pending] or [Processing] leaves it unchanged. In the job.rs store,
    [complete_job] and [update_status] to [Completed] set it to the current
    time whatever its previous value, while [fail_job] and [update_status]
    to [Failed], [Pending] or [Processing] leave it unchanged. *)
Theorem completed_at_set_on_every_terminal_call (st : JobStore) (jid : N)
    (s : JobStatus) (out msg : string) (now : Z)
    (new_id : N) (uid ofn sf tf eng : string) (opts : option string)
    (jst : JobRs.JobStore) (sid new_sid juid jofn jinf joutf jeid : string) :
  completed_at (create_job st new_id now uid ofn sf tf eng opts).1 = None /\
  match jobs st !! jid with
  | Some j =>
      option_map completed_at (jobs (complete_job st jid out now) !! jid)
        = Some (Some now) /\
      option_map completed_at (jobs (fail_job st jid msg now) !! jid)
        = Some (Some now) /\
      option_map completed_at (jobs (update_job_status st jid s now) !! jid)
        = Some (match s with
                | Completed | Failed => Some now
                | _ => completed_at j
                end)
  | None => True
  end /\
  JobRs.completed_at (JobRsOps.Job_new new_sid now juid jofn jinf joutf jeid)
    = None /\
  match jst !! sid with
  | Some j =>
      option_map JobRs.completed_at ((JobRs.complete_job jst sid out now).2 !! sid)
        = Some (Some now) /\
      option_map JobRs.completed_at ((JobRs.fail_job jst sid msg now).2 !! sid)
        = Some (JobRs.completed_at j) /\
      option_map JobRs.completed_at ((JobRs.update_status jst sid s now).2 !! sid)
        = Some (match s with
                | Completed => Some now
                | _ => JobRs.completed_at j
                end)
  | None => True
  end.
Proof.
  split; [done|]. split.
  - unfold update_job_status, complete_job, fail_job, update_in.
    destruct (jobs st !! jid) as [j|] eqn:Hj; [|done].
    simpl. rewrite !lookup_insert_eq. simpl. split; [done|split; [done|]].
    by destruct s.
  - split; [done|].
    unfold JobRs.update_status, JobRs.complete_job, JobRs.fail_job.
    destruct (jst !! sid) as [j|] eqn:Hj; [|done].
    simpl. rewrite !lookup_insert_eq. simpl. split; [done|split; [done|]].
    by destruct s.
Qed.

End DispatcherFacts.

(* ================================================================== *)
(** * Properties of the job.rs store's retention sweep *)

Module JobRsFacts.

Import JobRs.

Lemma wrap_i64_small (z : Z) :
  (- 2 ^ 63 <= z < 2 ^ 63)%Z -> wrap_i64 z = z.
Proof.
  intros Hz. unfold wrap_i64.
  destruct (Z.leb_spec 0 z) as [Hpos|Hneg].
  - rewrite Z.mod_small by lia.
    destruct (Z.leb_spec (2 ^ 63) z); lia.
  - assert (Hm : (z mod 2 ^ 64 = z + 2 ^ 64)%Z).
    { rewrite <- (Z_mod_plus_full z 1 (2 ^ 64)), Z.mul_1_l.
      apply Z.mod_small. lia. }
    rewrite Hm. destruct (Z.leb_spec (2 ^ 63) (z + 2 ^ 64)); lia.
Qed.

Lemma cutoff_of_small (now hours : Z) :
  (- 2 ^ 63 <= hours * 3600 < 2 ^ 63)%Z ->
  (- 2 ^ 63 <= now - hours * 3600 < 2 ^ 63)%Z ->
  cutoff_of now hours = (now - hours * 3600)%Z.
Proof.
  intros H1 H2. unfold cutoff_of. rewrite (wrap_i64_small (hours * 3600)) by done.
  by apply wrap_i64_small.
Qed.

Lemma foldl_delete_lookup (ks : list string) (m : JobStore) (k : string) :
  foldl (fun m k => delete k m) m ks !! k =
    if bool_decide (k ∈ ks) then None else m !! k.
Proof.
  revert m. induction ks as [|k' ks IH]; intros m; simpl; [done|].
  rewrite IH. case_bool_decide as Hin; case_bool_decide as Hin'.
  - done.
  - exfalso. apply Hin'. by apply elem_of_cons; right.
  - apply elem_of_cons in Hin' as [->|Hin']; [|done].
    by rewrite lookup_delete_eq.
  - rewrite lookup_delete_ne; [done|]. intros ->. apply Hin'.
    by apply elem_of_cons; left.
Qed.

Lemma old_jobs_elem (m : JobStore) (c : Z) (k : string) :
  k ∈ map fst (List.filter (fun '(_, j) => bool_decide (created_at j < c)%Z)
                 (map_to_list m)) <->
  exists j, m !! k = Some j /\ (created_at j < c)%Z.
Proof.
  rewrite list_elem_of_In, in_map_iff. split.
  - intros ([k' j] & <- & Hin). apply filter_In in Hin as [Hin Hc].
    apply bool_decide_eq_true in Hc. apply list_elem_of_In in Hin.
    apply elem_of_map_to_list in Hin. eauto.
  - intros (j & Hj & Hc). exists (k, j). split; [done|].
    apply filter_In. split; [|by apply bool_decide_eq_true].
    apply list_elem_of_In, elem_of_map_to_list, Hj.
Qed.

Lemma stdpp_filter_List_filter (c : Z) (l : list (string * Job)) :
  filter (fun kv : string * Job => (created_at kv.2 < c)%Z) l =
  List.filter (fun '(_, j) => bool_decide (created_at j < c)%Z) l.
Proof.
  induction l as [|[k j] l IH]; [done|].
  rewrite filter_cons. simpl. case_decide as Hc.
  - rewrite bool_decide_eq_true_2 by done. by rewrite IH.
  - rewrite bool_decide_eq_false_2 by done. done.
Qed.

Lemma NoDup_fst_filter (c : Z) (l : list (string * Job)) :
  NoDup l.*1 ->
  NoDup (List.filter (fun '(_, j) => bool_decide (created_at j < c)%Z) l).*1.
Proof.
  induction l as [|[k j] l IH]; simpl; [done|].
  intros Hnd. apply NoDup_cons in Hnd as [Hk Hnd].
  destruct (bool_decide _); simpl; [|by apply IH].
  apply NoDup_cons. split; [|by apply IH].
  intros Hin. apply Hk. apply list_elem_of_fmap in Hin as ([k' j'] & -> & Hin).
  apply list_elem_of_fmap. exists (k', j'). split; [done|].
  apply list_elem_of_In in Hin. apply filter_In in Hin as [Hin _].
  by apply list_elem_of_In.
Qed.

(** C9: with [hours = 2^62] the product [hours * 3600]
    wraps to [0] in [i64] arithmetic, the cutoff becomes [now], and the job
    created one hour ago, far younger than the requested age, is removed. *)
Lemma cleanup_huge_age_removes_young_job :
  (Samples.sweep_now - JobRs.created_at (Samples.job_at "young" (Samples.sweep_now - 3600)) < 2 ^ 62 * 3600)%Z /\
  (cleanup_old_jobs Samples.sweep_jobs (2 ^ 62) Samples.sweep_now).2 !! "young"
    = None /\
  (cleanup_old_jobs Samples.sweep_jobs (2 ^ 62) Samples.sweep_now).1 = 2.
Proof. vm_compute. repeat split. Qed.

(** Companion of C9: when [max_age = hours * 3600] and [now - max_age] are
    representable in [i64], [cleanup_old_jobs] removes exactly the jobs
    with [now - created_at > hours * 3600] (strictly older), keeps every
    other job unchanged, and returns the number of jobs removed. *)
Theorem cleanup_removes_exactly_older (jobs : JobStore) (hours now : Z) :
  (- 2 ^ 63 <= hours * 3600 < 2 ^ 63)%Z ->
  (- 2 ^ 63 <= now - hours * 3600 < 2 ^ 63)%Z ->
  (forall k, (cleanup_old_jobs jobs hours now).2 !! k =
     match jobs !! k with
     | Some j =>
         if bool_decide (now - created_at j > hours * 3600)%Z then None
         else Some j
     | None => None
     end) /\
  (cleanup_old_jobs jobs hours now).1 =
    size (filter (fun kv : string * Job =>
                    (now - created_at kv.2 > hours * 3600)%Z) jobs).
Proof.
  intros H1 H2. unfold cleanup_old_jobs. rewrite (cutoff_of_small now hours H1 H2).
  simpl. split.
  - intros k. rewrite foldl_delete_lookup.
    case_bool_decide as Hin.
    + apply old_jobs_elem in Hin as (j & -> & Hc).
      rewrite bool_decide_eq_true_2 by lia. done.
    + destruct (jobs !! k) as [j|] eqn:Hj; [|done].
      rewrite bool_decide_eq_false_2; [done|]. intros Hc. apply Hin.
      apply old_jobs_elem. exists j. split; [done|]. lia.
  - rewrite length_map.
    assert (Hf : filter (fun kv : string * Job =>
                           (now - created_at kv.2 > hours * 3600)%Z) jobs =
                 filter (fun kv : string * Job =>
                           (created_at kv.2 < now - hours * 3600)%Z) jobs).
    { apply map_filter_ext. intros ???. simpl. lia. }
    rewrite Hf.
    rewrite <- length_map_to_list, map_filter_alt.
    rewrite stdpp_filter_List_filter.
    rewrite (Permutation_length (map_to_list_to_map _
               (NoDup_fst_filter _ _ (NoDup_fst_map_to_list jobs)))).
    done.
Qed.

(** Witness for the companion of C9: the spec's scenario with [hours = 24]: the job created
    25 hours ago is removed, the one created 1 hour ago survives, and the
    count is 1. *)
Lemma cleanup_removes_exactly_older_witness :
  (- 2 ^ 63 <= 24 * 3600 < 2 ^ 63)%Z /\
  (- 2 ^ 63 <= Samples.sweep_now - 24 * 3600 < 2 ^ 63)%Z /\
  (cleanup_old_jobs Samples.sweep_jobs 24 Samples.sweep_now).2 !! "old" = None /\
  (cleanup_old_jobs Samples.sweep_jobs 24 Samples.sweep_now).2 !! "young"
    = Samples.sweep_jobs !! "young" /\
  (cleanup_old_jobs Samples.sweep_jobs 24 Samples.sweep_now).1 = 1.
Proof.
  assert (H1 : (- 2 ^ 63 <= 24 * 3600 < 2 ^ 63)%Z) by lia.
  assert (H2 : (- 2 ^ 63 <= Samples.sweep_now - 24 * 3600 < 2 ^ 63)%Z)
    by (unfold Samples.sweep_now; lia).
  destruct (cleanup_removes_exactly_older Samples.sweep_jobs 24 Samples.sweep_now
              H1 H2) as [Hk Hc].
  split; [exact H1|]. split; [exact H2|].
  rewrite !Hk, Hc. vm_compute. repeat split.
Defined.

End JobRsFacts.

(* ================================================================== *)
(** * Further properties of the engine registry *)

Module RegistryOpsFacts.

Import Registry RegistryOps.

Lemma dedup_strongly_sorted (l : list string) :
  StronglySorted String.le l ->
  StronglySorted String.le (dedup l) /\ NoDup (dedup l) /\
  (forall x, x ∈ dedup l <-> x ∈ l).
Proof.
  induction l as [|x l IH]; simpl.
  - intros _. split; [constructor|]. split; [constructor|done].
  - intros Hs. apply StronglySorted_inv in Hs as [Hs Hall].
    destruct (IH Hs) as (Hs1 & Hnd1 & Hm1).
    destruct l as [|y l'].
    + split; [repeat constructor|]. split; [by apply NoDup_singleton|done].
    + destruct (String.eqb x y) eqn:Hxy.
      * apply String.eqb_eq in Hxy as <-.
        split; [done|]. split; [done|]. intros z. rewrite Hm1. set_solver.
      * apply String.eqb_neq in Hxy. split; [|split].
        -- constructor; [done|]. apply Forall_forall. intros z Hz.
           apply Hm1 in Hz. by eapply Forall_forall in Hall.
        -- apply NoDup_cons. split; [|done]. rewrite Hm1. intros Hin.
           apply elem_of_cons in Hin as [->|Hin]; [done|].
           apply StronglySorted_inv in Hs as [_ Hall'].
           assert (Hyx : String.le y x).
           { eapply Forall_forall in Hall'; [exact Hall'|].
             done. }
           assert (Hxy' : String.le x y).
           { eapply Forall_forall in Hall; [exact Hall|]. by left. }
           apply Hxy. by apply (anti_symm String.le).
        -- intros z. rewrite elem_of_cons, Hm1. set_solver.
Qed.

Lemma dedup_sort_spec (l : list string) :
  StronglySorted String.le (dedup (sort_strings l)) /\
  NoDup (dedup (sort_strings l)) /\
  (forall x, x ∈ dedup (sort_strings l) <-> x ∈ l).
Proof.
  assert (Hs : StronglySorted String.le (sort_strings l))
    by (apply StronglySorted_merge_sort; apply _).
  destruct (dedup_strongly_sorted (sort_strings l) Hs) as (H1 & H2 & H3).
  split; [done|]. split; [done|]. intros x. rewrite H3.
  unfold sort_strings. by rewrite merge_sort_Permutation.
Qed.

Lemma elem_of_concat_map {A B} (f : A -> list B) (l : list A) (x : B) :
  x ∈ concat (map f l) <-> exists y, y ∈ l /\ x ∈ f y.
Proof.
  rewrite list_elem_of_In, in_concat. split.
  - intros (xs & Hxs & Hx). apply in_map_iff in Hxs as (y & <- & Hy).
    exists y. split; apply list_elem_of_In; done.
  - intros (y & Hy & Hx). exists (f y).
    apply list_elem_of_In in Hy, Hx. split; [|done]. by apply in_map.
Qed.

Lemma elem_of_output_formats (e : Engine) (x : string) :
  x ∈ output_formats e <->
  exists from outs, (from, outs) ∈ conversions e /\ x ∈ outs.
Proof.
  unfold output_formats.
  destruct (dedup_sort_spec (concat (map snd (conversions e)))) as (_ & _ & H3).
  rewrite H3, elem_of_concat_map. split.
  - intros ([from outs] & Hin & Hx). eauto.
  - intros (from & outs & Hin & Hx). by exists (from, outs).
Qed.

(** X1: [Engine::output_formats] is sorted, free of duplicates, and holds
    exactly the outputs listed under some input format of the engine. *)
Theorem output_formats_sorted_dedup_union (e : Engine) :
  StronglySorted String.le (output_formats e) /\ NoDup (output_formats e) /\
  (forall x, x ∈ output_formats e <->
     exists from outs, (from, outs) ∈ conversions e /\ x ∈ outs).
Proof.
  destruct (dedup_sort_spec (concat (map snd (conversions e)))) as (H1 & H2 & _).
  split; [done|]. split; [done|]. apply elem_of_output_formats.
Qed.

(** X2: [EngineRegistry::all_input_formats] is sorted, free of duplicates,
    and holds exactly the input formats of the registered engines. *)
Theorem all_input_formats_sorted_dedup_union (reg : EngineRegistry) :
  StronglySorted String.le (all_input_formats reg) /\
  NoDup (all_input_formats reg) /\
  (forall x, x ∈ all_input_formats reg <->
     exists e outs, e ∈ reg /\ (x, outs) ∈ conversions e).
Proof.
  unfold all_input_formats.
  destruct (dedup_sort_spec (concat (map input_formats reg))) as (H1 & H2 & H3).
  split; [done|]. split; [done|]. intros x. rewrite H3, elem_of_concat_map.
  unfold input_formats. split.
  - intros (e & He & Hx). apply list_elem_of_fmap in Hx as ([k outs] & -> & Hin).
    eauto.
  - intros (e & outs & He & Hin). exists e. split; [done|].
    apply list_elem_of_fmap. by exists (x, outs).
Qed.

(** X3: [EngineRegistry::all_output_formats] is sorted, free of duplicates,
    and holds exactly the outputs listed by some registered engine. *)
Theorem all_output_formats_sorted_dedup_union (reg : EngineRegistry) :
  StronglySorted String.le (all_output_formats reg) /\
  NoDup (all_output_formats reg) /\
  (forall x, x ∈ all_output_formats reg <->
     exists e from outs, e ∈ reg /\ (from, outs) ∈ conversions e /\ x ∈ outs).
Proof.
  unfold all_output_formats.
  destruct (dedup_sort_spec (concat (map output_formats reg))) as (H1 & H2 & H3).
  split; [done|]. split; [done|]. intros x. rewrite H3, elem_of_concat_map.
  setoid_rewrite elem_of_output_formats. naive_solver.
Qed.

Lemma map_get_insert {V} (k : string) (v : V) (m : list (string * V))
    (k' : string) :
  map_get k' (map_insert k v m) =
  if String.eqb k k' then Some v else map_get k' m.
Proof.
  induction m as [|[k1 v1] m IH]; simpl; [by destruct (String.eqb k k')|].
  destruct (String.eqb k1 k) eqn:E1.
  - apply String.eqb_eq in E1 as ->. simpl. by destruct (String.eqb k k').
  - simpl. rewrite IH.
    destruct (String.eqb k1 k') eqn:E2, (String.eqb k k') eqn:E3; try done.
    apply String.eqb_eq in E2, E3. subst. by rewrite String.eqb_refl in E1.
Qed.

Lemma map_get_elem {V} (m : list (string * V)) (k : string) (v : V) :
  NoDup (map fst m) -> map_get k m = Some v <-> (k, v) ∈ m.
Proof.
  induction m as [|[k1 v1] m IH]; simpl; intros Hnd.
  - split; [done|]. intros Hin. by apply elem_of_nil in Hin.
  - apply NoDup_cons in Hnd as [Hk1 Hnd]. rewrite elem_of_cons.
    destruct (String.eqb k1 k) eqn:E.
    + apply String.eqb_eq in E as ->. split.
      * intros [= ->]. by left.
      * intros [[= ->]|Hin]; [done|]. destruct Hk1.
        apply list_elem_of_fmap. by exists (k, v).
    + apply String.eqb_neq in E. rewrite IH by done. split; [by right|].
      intros [[= -> ->]|Hin]; [done|done].
Qed.

Lemma get_cons (e : Engine) (reg : EngineRegistry) (k : string) :
  get (e :: reg) k = if String.eqb (id e) k then Some e else get reg k.
Proof. reflexivity. Qed.

Lemma get_some (reg : EngineRegistry) (k : string) (e : Engine) :
  get reg k = Some e -> e ∈ reg /\ id e = k.
Proof.
  unfold get. intros Hf. apply find_some in Hf as [Hin Heq].
  apply String.eqb_eq in Heq. by rewrite list_elem_of_In.
Qed.

Lemma get_not_elem (reg : EngineRegistry) (k : string) :
  k ∉ map id reg -> get reg k = None.
Proof.
  induction reg as [|e reg IH]; intros Hk; [done|]. rewrite get_cons.
  destruct (String.eqb (id e) k) eqn:E.
  - apply String.eqb_eq in E as <-. destruct Hk. by left.
  - apply IH. intros Hin. apply Hk. by right.
Qed.

(** X4: [add_conversion] replaces the outputs of its (lower-cased) input
    format: afterwards [a -> b] is supported when [a] and [from] have the
    same [to_lowercase] and [b] has the same [to_lowercase] as one of the
    new outputs, and otherwise exactly when it was supported before.
    Outputs registered earlier for the same input are dropped. The proof
    uses no property of [to_lowercase]: only that the same function
    lower-cases keys, outputs and queries. *)
Theorem add_conversion_supports (e : Engine) (from : string)
    (tos : list string) (a b : string) :
  supports_conversion (add_conversion e from tos) a b = true <->
  (to_lowercase a = to_lowercase from /\
     exists t, t ∈ tos /\ to_lowercase t = to_lowercase b) \/
  (to_lowercase a <> to_lowercase from /\ supports_conversion e a b = true).
Proof.
  unfold supports_conversion, add_conversion; simpl.
  rewrite map_get_insert.
  destruct (String.eqb (to_lowercase from) (to_lowercase a)) eqn:E.
  - apply String.eqb_eq in E. rewrite RegistryFacts.contains_spec,
      list_elem_of_fmap. split.
    + intros (t & Ht & Hin). left. split; [done|]. by exists t.
    + intros [(_ & t & Hin & Ht)|[? _]]; [|done]. by exists t.
  - apply String.eqb_neq in E. split.
    + intros H. by right.
    + intros [[? _]|[_ H]]; [done|done].
Qed.

(** X5: [EngineRegistry::register] followed by [get]: the registered engine
    is found under its id, every other id resolves as before, and ids stay
    unique. *)
Theorem register_get (reg : EngineRegistry) (e : Engine) (k : string) :
  get (register reg e) k = (if String.eqb (id e) k then Some e else get reg k) /\
  (NoDup (map id reg) -> NoDup (map id (register reg e))).
Proof.
  split.
  - induction reg as [|e' reg IH]; simpl register.
    + rewrite get_cons. by destruct (String.eqb (id e) k).
    + destruct (String.eqb (id e') (id e)) eqn:E.
      * apply String.eqb_eq in E. rewrite !get_cons, E.
        by destruct (String.eqb (id e) k).
      * rewrite !get_cons, IH.
        destruct (String.eqb (id e') k) eqn:E2, (String.eqb (id e) k) eqn:E3;
          try done.
        apply String.eqb_eq in E2, E3. rewrite <- E3 in E2.
        by rewrite E2, String.eqb_refl in E.
  - induction reg as [|e' reg IH]; simpl register; intros Hnd.
    + simpl. apply NoDup_singleton.
    + simpl in Hnd. apply NoDup_cons in Hnd as [Hn Hnd].
      destruct (String.eqb (id e') (id e)) eqn:E.
      * apply String.eqb_eq in E. simpl. apply NoDup_cons. by rewrite <- E.
      * apply String.eqb_neq in E. simpl. apply NoDup_cons.
        split; [|by apply IH].
        assert (Hsub : forall x, x ∈ map id (register reg e) ->
                                 x = id e \/ x ∈ map id reg).
        { clear. induction reg as [|e2 reg IH]; simpl; intros x Hx.
          - apply list_elem_of_singleton in Hx. by left.
          - destruct (String.eqb (id e2) (id e)) eqn:E2; simpl in Hx;
              apply elem_of_cons in Hx as [->|Hx]; try by left.
            + right. by right.
            + right. by left.
            + destruct (IH x Hx) as [?|?]; [by left|right; by right]. }
        intros Hin. apply Hsub in Hin as [?|?]; [by apply E|done].
Qed.

Lemma targets_fold (f : string) (reg : EngineRegistry)
    (acc : list (string * list string)) (k : string) :
  NoDup (map id reg) ->
  map_get k
    (fold_left
       (fun result e =>
          match map_get f (conversions e) with
          | Some outputs =>
              match outputs with
              | [] => result
              | _ :: _ => map_insert (id e) outputs result
              end
          | None => result
          end) reg acc) =
  match get reg k with
  | Some e =>
      match map_get f (conversions e) with
      | Some (o :: os) => Some (o :: os)
      | _ => map_get k acc
      end
  | None => map_get k acc
  end.
Proof.
  revert acc. induction reg as [|e reg IH]; intros acc Hnd; [done|].
  simpl in Hnd. apply NoDup_cons in Hnd as [Hn Hnd].
  simpl fold_left. rewrite IH by done. rewrite get_cons.
  destruct (String.eqb (id e) k) eqn:Ek.
  - apply String.eqb_eq in Ek as <-. rewrite get_not_elem by done.
    destruct (map_get f (conversions e)) as [[|o os]|]; try done.
    by rewrite map_get_insert, String.eqb_refl.
  - assert (Hacc : map_get k
      (match map_get f (conversions e) with
       | Some outputs =>
           match outputs with
           | [] => acc
           | _ :: _ => map_insert (id e) outputs acc
           end
       | None => acc
       end) = map_get k acc).
    { destruct (map_get f (conversions e)) as [[|o os]|]; try done.
      by rewrite map_get_insert, Ek. }
    rewrite Hacc. done.
Qed.

(** X6: When engine ids are unique, [get_targets_for reg from] maps each
    engine id to that engine's outputs for [from] (case-insensitively),
    and has no key for engines without a non-empty output list. *)
Theorem get_targets_for_spec (reg : EngineRegistry) (from k : string)
    (Hnd : NoDup (map id reg)) :
  map_get k (get_targets_for reg from) =
  match get reg k with
  | Some e =>
      match output_formats_for e from with
      | [] => None
      | outs => Some outs
      end
  | None => None
  end.
Proof.
  unfold get_targets_for, output_formats_for. rewrite targets_fold by done.
  destruct (get reg k) as [e|]; [|done].
  by destruct (map_get (to_lowercase from) (conversions e)) as [[|o os]|].
Qed.

Lemma get_targets_for_spec_witness :
  NoDup (map id [Samples.pandoc; Samples.alpha]) /\
  map_get "alpha" (get_targets_for [Samples.pandoc; Samples.alpha] "MD") =
  Some ["html"; "pdf"].
Proof.
  split; [vm_compute; repeat constructor; set_solver|].
  rewrite (get_targets_for_spec [Samples.pandoc; Samples.alpha] "MD" "alpha");
    [reflexivity|].
  vm_compute. repeat constructor; set_solver.
Defined.

(** X7: [validate_conversion] answers [Valid x] only for an engine of the
    registry with id [x] that supports the conversion, whether or not an
    engine was requested. *)
Theorem validate_valid_supported (reg : EngineRegistry) (from to : string)
    (engine : option string) (x : string) :
  validate_conversion reg from to engine = Valid x ->
  exists e, e ∈ reg /\ id e = x /\ supports_conversion e from to = true.
Proof.
  unfold validate_conversion. destruct engine as [eid|].
  - destruct (get reg eid) as [e|] eqn:Hg; [|done].
    apply get_some in Hg as [He Hid].
    destruct (supports_conversion e from to) eqn:Hs; [|done].
    intros [= <-]. by exists e.
  - destruct (find_engines_for reg from to) as [|e rest] eqn:Hf; [done|].
    intros [= <-]. exists e.
    assert (Hin : e ∈ find_engines_for reg from to) by (rewrite Hf; by left).
    unfold find_engines_for in Hin. apply list_elem_of_In, filter_In in Hin
      as [Hin Hb]. apply andb_prop in Hb as [_ Hb].
    split; [by apply list_elem_of_In|done].
Qed.

Lemma validate_valid_supported_witness :
  validate_conversion [Samples.pandoc] "md" "pdf" None = Valid "pandoc" /\
  exists e, e ∈ [Samples.pandoc] /\ id e = "pandoc" /\
    supports_conversion e "md" "pdf" = true.
Proof.
  split; [reflexivity|].
  apply (validate_valid_supported [Samples.pandoc] "md" "pdf" None "pandoc").
  reflexivity.
Defined.

(** X8: For an engine whose input formats are distinct, [get_conversions]
    lists exactly the lower-case pairs the engine supports. *)
Theorem get_conversions_supported (e : Engine) (f t : string)
    (Hnd : NoDup (map fst (conversions e)))
    (Hf : to_lowercase f = f) (Ht : to_lowercase t = t) :
  (f, t) ∈ get_conversions e <-> supports_conversion e f t = true.
Proof.
  unfold get_conversions, supports_conversion. rewrite Hf, Ht.
  rewrite elem_of_concat_map. split.
  - intros ([k outs] & Hin & Hx). apply list_elem_of_fmap in Hx
      as (t' & [= -> ->] & Ht').
    rewrite (proj2 (map_get_elem _ _ _ Hnd) Hin).
    by apply RegistryFacts.contains_spec.
  - destruct (map_get f (conversions e)) as [outs|] eqn:Hg; [|done].
    intros Hc. apply RegistryFacts.contains_spec in Hc.
    exists (f, outs). split; [by apply map_get_elem|].
    apply list_elem_of_fmap. by exists t.
Qed.

Lemma get_conversions_supported_witness :
  NoDup (map fst (conversions Samples.pandoc)) /\
  ((("md", "pdf") ∈ get_conversions Samples.pandoc) <->
   supports_conversion Samples.pandoc "md" "pdf" = true).
Proof.
  split; [vm_compute; repeat constructor; set_solver|].
  apply get_conversions_supported; [|reflexivity|reflexivity].
  vm_compute. repeat constructor; set_solver.
Defined.

End RegistryOpsFacts.

(* ================================================================== *)
(** * Further properties of the dispatcher's job store *)

Module DispatcherOpsFacts.

Import Dispatcher.

Lemma omap_ext_elem {A B} (f g : A -> option B) (l : list A) :
  (forall x, x ∈ l -> f x = g x) -> omap f l = omap g l.
Proof.
  intros H. apply list_omap_ext, Forall_Forall2_diag, Forall_forall.
  intros x Hx. by apply H.
Qed.

Lemma omap_insert_fresh (st : JobStore) (nid : N) (x : ConversionJob)
    (u : string) (ids : list N) :
  index_consistent st -> jobs st !! nid = None -> user_jobs st !! u = Some ids ->
  omap (fun i => <[nid := x]> (jobs st) !! i) ids = omap (fun i => jobs st !! i) ids.
Proof.
  intros [H1 _] Hfresh Hu. apply omap_ext_elem. intros i Hi.
  destruct (H1 u ids i Hu Hi) as (j & Hj & _).
  rewrite lookup_insert_ne; [done|]. intros ->. congruence.
Qed.

Lemma update_in_keeps {B} (K : ConversionJob -> B) (st : JobStore) (jid : N)
    (f : ConversionJob -> ConversionJob) :
  (forall j, K (f j) = K j) ->
  user_jobs (update_in st jid f) = user_jobs st /\
  (forall i, K <$> jobs (update_in st jid f) !! i = K <$> jobs st !! i).
Proof.
  intros HK. unfold update_in. destruct (jobs st !! jid) as [j|] eqn:Hj; [|done].
  simpl. split; [done|]. intros i. destruct (decide (jid = i)) as [<-|Hne].
  - rewrite lookup_insert_eq, Hj. simpl. by rewrite HK.
  - by rewrite lookup_insert_ne.
Qed.

(** X9: [create_job] followed by [get_job] or by [get_user_job] for the
    creator returns the new job, which is [Pending], has no output, no
    error and no completion time, and carries the given owner and creation
    time; the jobs under other ids are unchanged. *)
Theorem create_job_get (st : JobStore) (nid : N) (now : Z)
    (uid ofn sf tf eng : string) (opts : option string) :
  let '(job, st') := create_job st nid now uid ofn sf tf eng opts in
  get_job st' nid = Some job /\ get_user_job st' nid uid = Some job /\
  id job = nid /\ user_id job = uid /\ status job = Pending /\
  output_filename job = None /\ error_message job = None /\
  completed_at job = None /\ created_at job = now /\
  (forall i, i <> nid -> get_job st' i = get_job st i).
Proof.
  unfold create_job, get_job, get_user_job; simpl.
  rewrite lookup_insert_eq. simpl. rewrite String.eqb_refl.
  repeat split. intros i Hi. by rewrite lookup_insert_ne.
Qed.

(** X10: With a fresh id and a consistent owner index, [create_job] appends
    the new job at the end of the creator's [list_user_jobs] and leaves
    every other user's list unchanged. *)
Theorem list_user_jobs_create (st : JobStore) (nid : N) (now : Z)
    (uid ofn sf tf eng : string) (opts : option string)
    (Hfresh : jobs st !! nid = None) (Hc : index_consistent st) :
  let '(job, st') := create_job st nid now uid ofn sf tf eng opts in
  list_user_jobs st' uid = (list_user_jobs st uid ++ [job])%list /\
  (forall u, u <> uid -> list_user_jobs st' u = list_user_jobs st u).
Proof.
  unfold create_job, list_user_jobs; simpl. split.
  - rewrite lookup_insert_eq.
    destruct (user_jobs st !! uid) as [ids|] eqn:Hu; simpl.
    + rewrite omap_app, (omap_insert_fresh st nid _ uid ids) by done.
      simpl. by rewrite lookup_insert_eq.
    + by rewrite lookup_insert_eq.
  - intros u Hne. rewrite lookup_insert_ne by congruence.
    destruct (user_jobs st !! u) as [ids|] eqn:Hu; [|done].
    by apply (omap_insert_fresh st nid _ u ids).
Qed.

Lemma empty_store_consistent : index_consistent empty_store.
Proof. split; simpl; intros *; rewrite lookup_empty; done. Qed.

Lemma list_user_jobs_create_witness :
  jobs empty_store !! 7%N = None /\ index_consistent empty_store /\
  list_user_jobs (create_job empty_store 7%N 0%Z "bob" "a.md" "md" "pdf"
                    "pandoc" None).2 "bob" =
  [(create_job empty_store 7%N 0%Z "bob" "a.md" "md" "pdf" "pandoc" None).1].
Proof.
  split; [done|]. split; [apply empty_store_consistent|].
  destruct (list_user_jobs_create empty_store 7%N 0%Z "bob" "a.md" "md" "pdf"
              "pandoc" None eq_refl empty_store_consistent) as [H _].
  exact H.
Defined.

(** X11: When the owner index is consistent, [list_user_jobs st u] lists
    exactly the jobs of the store whose [user_id] is [u]. *)
Theorem list_user_jobs_spec (st : JobStore) (u : string) (j : ConversionJob)
    (Hc : index_consistent st) :
  j ∈ list_user_jobs st u <-> user_id j = u /\ exists i, jobs st !! i = Some j.
Proof.
  destruct Hc as [H1 H2]. unfold list_user_jobs. split.
  - destruct (user_jobs st !! u) as [ids|] eqn:Hu;
      [|intros Hin; by apply elem_of_nil in Hin].
    intros Hin. apply list_elem_of_omap in Hin as (i & Hi & Hj).
    destruct (H1 u ids i Hu Hi) as (j' & Hj' & Hu'). split; [congruence|].
    by exists i.
  - intros (<- & i & Hj). destruct (H2 i j Hj) as (ids & Hu & Hi).
    rewrite Hu. apply list_elem_of_omap. by exists i.
Qed.

Lemma list_user_jobs_spec_witness :
  index_consistent Samples.st_alice /\
  (create_job empty_store 1%N 0%Z "alice" "report.md" "md" "pdf" "pandoc"
     None).1 ∈ list_user_jobs Samples.st_alice "alice".
Proof.
  assert (Hc : index_consistent Samples.st_alice).
  { apply DispatcherFacts.create_job_consistent; [done|].
    apply empty_store_consistent. }
  split; [done|]. apply (list_user_jobs_spec Samples.st_alice "alice" _ Hc).
  split; [done|]. exists 1%N. reflexivity.
Defined.

(** X12: [update_job_status], [complete_job] and [fail_job] never add or
    remove a job, never touch the owner index, and never change a job's
    id, owner, original file name, formats, engine, creation time or
    options. *)
Theorem mutators_preserve_identity (st : JobStore) (jid : N) (s : JobStatus)
    (out msg : string) (now : Z) :
  Forall (fun st' =>
    user_jobs st' = user_jobs st /\
    forall i,
      (fun j => (id j, user_id j, original_filename j, source_format j,
                 target_format j, engine j, created_at j, options j))
        <$> jobs st' !! i =
      (fun j => (id j, user_id j, original_filename j, source_format j,
                 target_format j, engine j, created_at j, options j))
        <$> jobs st !! i)
    [update_job_status st jid s now; complete_job st jid out now;
     fail_job st jid msg now].
Proof.
  constructor; [|constructor; [|constructor; [|constructor]]];
    apply update_in_keeps; intros j; [|done|done].
  by destruct s.
Qed.

End DispatcherOpsFacts.

(* ================================================================== *)
(** * Properties of the job.rs store and of [process_conversion] *)

Module JobRsOpsFacts.

Import Dispatcher JobRs JobRsOps.

(** X13: A job made by [Job::new] and stored with [create_job] is found by
    [get_job] under its id as a [Pending] job at progress 0 with no output,
    no error and no completion time; [is_job_owner] answers for its creator
    only, and the other ids are unchanged. *)
Theorem create_new_job_get (jobs : JobStore) (nid : string) (now : Z)
    (uid ofn inf outf eid u : string) :
  let '(job, jobs') := create_job jobs (Job_new nid now uid ofn inf outf eid) in
  get_job jobs' nid = Some job /\
  status job = Pending /\ progress job = 0%Z /\ output_file job = None /\
  error_message job = None /\ completed_at job = None /\
  created_at job = now /\ updated_at job = now /\
  is_job_owner jobs' nid u = String.eqb uid u /\
  (forall k, k <> nid -> get_job jobs' k = get_job jobs k).
Proof.
  unfold create_job, get_job, is_job_owner; simpl.
  rewrite lookup_insert_eq. repeat split. intros k Hk.
  by rewrite lookup_insert_ne.
Qed.

(** X14: [get_user_jobs jobs u] lists exactly the stored jobs owned by
    [u]. *)
Theorem get_user_jobs_spec (jobs : JobStore) (u : string) (j : Job) :
  j ∈ get_user_jobs jobs u <-> user_id j = u /\ exists k, jobs !! k = Some j.
Proof.
  unfold get_user_jobs. rewrite list_elem_of_In, filter_In, in_map_iff,
    String.eqb_eq. split.
  - intros (([k j'] & <- & Hin) & Hu). split; [done|]. exists k.
    apply list_elem_of_In, elem_of_map_to_list in Hin. done.
  - intros (Hu & k & Hk). split; [|done]. exists (k, j). split; [done|].
    by apply list_elem_of_In, elem_of_map_to_list.
Qed.

(** X15: For every [hours] and [now], also when [hours * 3600] or
    [now - hours * 3600] wraps around in [i64], [cleanup_old_jobs] keeps
    exactly the jobs created at or after the (wrapped) cutoff, returns the
    number of jobs it removed, and that number plus the size of the new
    store is the size of the old one. *)
Theorem cleanup_old_jobs_partition (jobs : JobStore) (hours now : Z) :
  (cleanup_old_jobs jobs hours now).2 =
    filter (fun kv : string * Job =>
              ~ (created_at kv.2 < cutoff_of now hours)%Z) jobs /\
  (cleanup_old_jobs jobs hours now).1 =
    size (filter (fun kv : string * Job =>
                    (created_at kv.2 < cutoff_of now hours)%Z) jobs) /\
  ((cleanup_old_jobs jobs hours now).1 +
     size (cleanup_old_jobs jobs hours now).2 = size jobs)%nat.
Proof.
  set (c := cutoff_of now hours).
  assert (Hkeep : (cleanup_old_jobs jobs hours now).2 =
    filter (fun kv : string * Job => ~ (created_at kv.2 < c)%Z) jobs).
  { unfold cleanup_old_jobs. fold c. simpl. apply map_eq. intros k.
    rewrite JobRsFacts.foldl_delete_lookup. case_bool_decide as Hin.
    - apply JobRsFacts.old_jobs_elem in Hin as (j & Hj & Hc).
      symmetry. apply map_lookup_filter_None. right. intros x Hx.
      rewrite Hj in Hx. injection Hx as <-. simpl. lia.
    - destruct (jobs !! k) as [j|] eqn:Hj.
      + symmetry. apply map_lookup_filter_Some. split; [done|]. simpl.
        intros Hc. apply Hin. apply JobRsFacts.old_jobs_elem. eauto.
      + symmetry. apply map_lookup_filter_None. by left. }
  assert (Hcount : (cleanup_old_jobs jobs hours now).1 =
    size (filter (fun kv : string * Job => (created_at kv.2 < c)%Z) jobs)).
  { unfold cleanup_old_jobs. fold c. simpl. rewrite length_map.
    rewrite <- length_map_to_list, map_filter_alt.
    rewrite JobRsFacts.stdpp_filter_List_filter.
    rewrite (Permutation_length (map_to_list_to_map _
               (JobRsFacts.NoDup_fst_filter _ _ (NoDup_fst_map_to_list jobs)))).
    done. }
  split; [done|]. split; [done|]. rewrite Hkeep, Hcount.
  rewrite <- map_size_disj_union by apply map_disjoint_filter_complement.
  by rewrite map_filter_union_complement.
Qed.

Lemma update_status_some (jobs : JobStore) (jid : string) (s : JobStatus)
    (now : Z) (j : Job) :
  jobs !! jid = Some j ->
  (update_status jobs jid s now).2 =
  <[jid := set_fields j s (progress j) (error_message j) (output_file j) now
             (if decide (s = Completed) then Some now else completed_at j)]> jobs.
Proof. intros H. unfold update_status. by rewrite H. Qed.

Lemma update_progress_some (jobs : JobStore) (jid : string) (p now : Z)
    (j : Job) :
  jobs !! jid = Some j ->
  (update_progress jobs jid p now).2 =
  <[jid := set_fields j (status j) (Z.min p 100%Z) (error_message j)
             (output_file j) now (completed_at j)]> jobs.
Proof. intros H. unfold update_progress. by rewrite H. Qed.

Lemma complete_job_some (jobs : JobStore) (jid out : string) (now : Z)
    (j : Job) :
  jobs !! jid = Some j ->
  (complete_job jobs jid out now).2 =
  <[jid := set_fields j Completed 100%Z (error_message j) (Some out) now
             (Some now)]> jobs.
Proof. intros H. unfold complete_job. by rewrite H. Qed.

Lemma fail_job_some (jobs : JobStore) (jid msg : string) (now : Z) (j : Job) :
  jobs !! jid = Some j ->
  (fail_job jobs jid msg now).2 =
  <[jid := set_fields j Failed (progress j) (Some msg) (output_file j) now
             (completed_at j)]> jobs.
Proof. intros H. unfold fail_job. by rewrite H. Qed.

(** X16: [process_conversion] on a missing job changes nothing. On an
    existing job it changes only that job, keeps its owner and creation
    time, and stamps it with the last time; on success the job ends
    [Completed] at progress 100 with the output file and a completion time,
    on error it ends [Failed] at progress 10 with the error message, its
    previous output file and its previous completion time. *)
Theorem process_conversion_result (jobs : JobStore) (jid : string)
    (outcome : ConversionOutcome) (t1 t2 t3 : Z) :
  match jobs !! jid with
  | None => process_conversion jobs jid outcome t1 t2 t3 = jobs
  | Some j =>
      exists j',
        process_conversion jobs jid outcome t1 t2 t3 !! jid = Some j' /\
        (forall k, k <> jid ->
           process_conversion jobs jid outcome t1 t2 t3 !! k = jobs !! k) /\
        user_id j' = user_id j /\ created_at j' = created_at j /\
        updated_at j' = t3 /\
        match outcome with
        | ConvOk out =>
            status j' = Completed /\ progress j' = 100%Z /\
            output_file j' = Some out /\ completed_at j' = Some t3
        | ConvErr msg =>
            status j' = Failed /\ progress j' = 10%Z /\
            error_message j' = Some msg /\ output_file j' = output_file j /\
            completed_at j' = completed_at j
        end
  end.
Proof.
  destruct (jobs !! jid) as [j|] eqn:Hj.
  - unfold process_conversion.
    rewrite (update_status_some _ _ _ _ j Hj).
    rewrite (update_progress_some _ _ _ _ _ (lookup_insert_eq _ _ _)).
    destruct outcome as [out|msg].
    + rewrite (complete_job_some _ _ _ _ _ (lookup_insert_eq _ _ _)).
      rewrite lookup_insert_eq. eexists. split; [reflexivity|].
      split; [intros k Hk; by rewrite !lookup_insert_ne by congruence|].
      repeat split.
    + rewrite (fail_job_some _ _ _ _ _ (lookup_insert_eq _ _ _)).
      rewrite lookup_insert_eq. eexists. split; [reflexivity|].
      split; [intros k Hk; by rewrite !lookup_insert_ne by congruence|].
      repeat split.
  - unfold process_conversion, update_status, update_progress, complete_job,
      fail_job. rewrite Hj. simpl. rewrite Hj.
    by destruct outcome; simpl; rewrite Hj.
Qed.

End JobRsOpsFacts.

(* ================================================================== *)
(** * Properties of engine.rs and of the handlers' checks *)

Module EngineRsFacts.

Import EngineRs.

Lemma existsb_eq_ignore_case (l : list string) (x : string) :
  existsb (fun f => eq_ignore_ascii_case f x) l = true <->
  exists f, f ∈ l /\ to_lowercase f = to_lowercase x.
Proof.
  rewrite existsb_exists. unfold eq_ignore_ascii_case. split.
  - intros (f & Hf & Heq). apply String.eqb_eq in Heq.
    exists f. by rewrite list_elem_of_In.
  - intros (f & Hf & Heq). exists f. rewrite <- list_elem_of_In.
    split; [done|]. by apply String.eqb_eq.
Qed.

Lemma supports_spec (e : Engine) (i o : string) :
  supports_conversion e i o = true <->
  enabled e = true /\
  (exists f, f ∈ input_formats e /\ to_lowercase f = to_lowercase i) /\
  (exists g, g ∈ output_formats e /\ to_lowercase g = to_lowercase o).
Proof.
  unfold supports_conversion. destruct (enabled e); simpl; [|naive_solver].
  rewrite andb_true_iff, !existsb_eq_ignore_case. naive_solver.
Qed.

(** X17: engine.rs [supports_conversion] holds exactly when the engine is
    enabled, the input is one of its input formats and the output one of
    its output formats, both compared up to ASCII case. *)
Theorem engine_supports_conversion_spec (e : Engine) (i o : string) :
  supports_conversion e i o = true <->
  enabled e = true /\
  (exists f, f ∈ input_formats e /\ to_lowercase f = to_lowercase i) /\
  (exists g, g ∈ output_formats e /\ to_lowercase g = to_lowercase o).
Proof. apply supports_spec. Qed.

(** X18: engine.rs engines support the full product of their input and
    output lists: if [a -> b] and [c -> d] are supported, so is [a -> d]. *)
Theorem engine_supports_product (e : Engine) (a b c d : string) :
  supports_conversion e a b = true -> supports_conversion e c d = true ->
  supports_conversion e a d = true.
Proof.
  rewrite !supports_spec. intros (He & Ha & _) (_ & _ & Hd). done.
Qed.

Lemma engine_supports_product_witness :
  supports_conversion
    (mkEngine "libreoffice" "LibreOffice" "" true ["docx"; "odt"] ["pdf"; "odt"]
       100 false None) "docx" "pdf" = true /\
  supports_conversion
    (mkEngine "libreoffice" "LibreOffice" "" true ["docx"; "odt"] ["pdf"; "odt"]
       100 false None) "odt" "odt" = true /\
  supports_conversion
    (mkEngine "libreoffice" "LibreOffice" "" true ["docx"; "odt"] ["pdf"; "odt"]
       100 false None) "DOCX" "odt" = true.
Proof.
  split; [reflexivity|]. split; [reflexivity|].
  apply (engine_supports_product _ "DOCX" "pdf" "odt" "odt"); reflexivity.
Defined.

(** X19: [list_engines] returns the registered engines, each once, sorted
    by [engine_id]. *)
Theorem list_engines_sorted_perm (reg : EngineRegistry) :
  StronglySorted id_le (list_engines reg) /\ list_engines reg ≡ₚ reg.
Proof.
  assert (Ht : Transitive id_le).
  { intros a b c Hab Hbc. unfold id_le in *. by transitivity (engine_id b). }
  assert (Htot : Total id_le).
  { intros a b. unfold id_le. apply (total String.le). }
  split; [by apply StronglySorted_merge_sort|].
  apply merge_sort_Permutation.
Qed.

(** X20: [find_engine_for_conversion] returns an engine of the registry
    that is enabled and supports the conversion, and returns [None] only
    when no engine of the registry supports it. *)
Theorem find_engine_for_conversion_spec (reg : EngineRegistry) (i o : string) :
  match find_engine_for_conversion reg i o with
  | Some e => e ∈ reg /\ enabled e = true /\ supports_conversion e i o = true
  | None => forall e, e ∈ reg -> supports_conversion e i o = false
  end.
Proof.
  unfold find_engine_for_conversion.
  destruct (List.find _ reg) as [e|] eqn:Hf.
  - apply find_some in Hf as [Hin Hs]. split; [by apply list_elem_of_In|].
    split; [|done]. by apply supports_spec in Hs as [? _].
  - intros e He. apply list_elem_of_In in He.
    by apply (find_none _ _ Hf).
Qed.

End EngineRsFacts.

Module HandlersFacts.

Import Dispatcher JobRs Handlers.

(** X21: The engine chosen by [convert] exists in the registry under the
    returned id, is enabled, and supports the conversion, whether it was
    requested or found. *)
Theorem select_engine_sound (reg : EngineRs.EngineRegistry)
    (i o : string) (engine : option string) (x : string) :
  select_engine reg i o engine = inl x ->
  exists e, e ∈ reg /\ EngineRs.engine_id e = x /\ EngineRs.enabled e = true /\
            EngineRs.supports_conversion e i o = true.
Proof.
  unfold select_engine. destruct engine as [eid|].
  - destruct (EngineRs.get_engine reg eid) as [e|] eqn:Hg; [|done].
    unfold EngineRs.get_engine in Hg. apply find_some in Hg as [Hin Hid].
    apply String.eqb_eq in Hid.
    destruct (EngineRs.supports_conversion e i o) eqn:Hs; [|done].
    intros [= <-]. exists e. split; [by apply list_elem_of_In|].
    split; [done|]. split; [|done].
    by apply EngineRsFacts.supports_spec in Hs as [? _].
  - destruct (EngineRs.find_engine_for_conversion reg i o) as [e|] eqn:Hf;
      [|done].
    intros [= <-]. exists e.
    unfold EngineRs.find_engine_for_conversion in Hf.
    apply find_some in Hf as [Hin Hs]. split; [by apply list_elem_of_In|].
    split; [done|]. split; [|done].
    by apply EngineRsFacts.supports_spec in Hs as [? _].
Qed.

Lemma select_engine_sound_witness :
  select_engine
    [EngineRs.mkEngine "pandoc" "Pandoc" "" true ["md"] ["pdf"] 100 false None]
    "md" "pdf" (Some "pandoc") = inl "pandoc" /\
  exists e,
    e ∈ [EngineRs.mkEngine "pandoc" "Pandoc" "" true ["md"] ["pdf"] 100 false None] /\
    EngineRs.engine_id e = "pandoc" /\ EngineRs.enabled e = true /\
    EngineRs.supports_conversion e "md" "pdf" = true.
Proof.
  split; [reflexivity|].
  apply (select_engine_sound _ "md" "pdf" (Some "pandoc")). reflexivity.
Defined.

(** X22: [get_job_status] returns a job only to its owner. For another
    user it fails with [Forbidden] when the job exists and with
    [JobNotFound] when it does not, so the two cases are told apart. *)
Theorem get_job_status_owner_only (jobs : JobStore) (uid jid : string) :
  (forall job, get_job_status jobs uid jid = inl job <->
     jobs !! jid = Some job /\ user_id job = uid) /\
  match jobs !! jid with
  | Some j => user_id j <> uid ->
      get_job_status jobs uid jid = inr (Forbidden "Not authorized to access this job")
  | None => get_job_status jobs uid jid = inr (JobNotFound jid)
  end.
Proof.
  unfold get_job_status. destruct (jobs !! jid) as [j|] eqn:Hj.
  - destruct (String.eqb (user_id j) uid) eqn:E; simpl.
    + apply String.eqb_eq in E. split; [|done].
      intros job. split; [intros [= <-]; done|intros [[= <-] _]; done].
    + apply String.eqb_neq in E. split; [|done].
      intros job. split; [done|]. intros [[= <-] ?]. done.
  - split; [|done]. intros job. split; [done|]. by intros [? _].
Qed.

(** X23: The download checks of [download_job_result] pass only for a user
    with the download scope who owns the job, when the job is [Completed]
    and has an output file, which is then the file returned. *)
Theorem download_checks_sound (jobs : JobStore) (can_download : bool)
    (uid jid f : string) :
  download_checks jobs can_download uid jid = inl f ->
  can_download = true /\
  exists job, jobs !! jid = Some job /\ user_id job = uid /\
              status job = Completed /\ output_file job = Some f.
Proof.
  unfold download_checks. destruct can_download; simpl; [|done].
  destruct (jobs !! jid) as [job|]; [|done].
  destruct (String.eqb (user_id job) uid) eqn:E; simpl; [|done].
  apply String.eqb_eq in E.
  case_bool_decide as Hs; simpl; [|done].
  destruct (output_file job) as [g|] eqn:Ho; [|done].
  intros [= <-]. split; [done|]. by exists job.
Qed.

Lemma download_checks_sound_witness :
  download_checks
    (<["j1" := mkJob "j1" "alice" "report.md" "md" "pdf" "pandoc" Completed
                 100 None (Some "out.pdf") 0 20 (Some 20%Z)]> ∅)
    true "alice" "j1" = inl "out.pdf" /\
  exists job,
    (<["j1" := mkJob "j1" "alice" "report.md" "md" "pdf" "pandoc" Completed
                 100 None (Some "out.pdf") 0 20 (Some 20%Z)]> ∅ : JobStore)
      !! "j1" = Some job /\
    user_id job = "alice" /\ status job = Completed /\
    output_file job = Some "out.pdf".
Proof.
  split; [reflexivity|].
  destruct (download_checks_sound
              (<["j1" := mkJob "j1" "alice" "report.md" "md" "pdf" "pandoc"
                           Completed 100 None (Some "out.pdf") 0 20
                           (Some 20%Z)]> ∅)
              true "alice" "j1" "out.pdf") as [_ H];
    [reflexivity|].
  exact H.
Defined.

Lemma append_string_assoc (a b c : string) :
  (a ++ b) ++ c = a ++ (b ++ c).
Proof.
  induction a as [|x a IH]; [reflexivity|]. exact (f_equal (String x) IH).
Qed.

Lemma append_string_empty (a : string) : a ++ EmptyString = a.
Proof.
  induction a as [|x a IH]; [reflexivity|]. exact (f_equal (String x) IH).
Qed.

Lemma last_segment_from_no_dot (s acc : string) :
  ~ In "."%char (String.list_ascii_of_string s) -> last_segment_from s acc = acc ++ s.
Proof.
  revert acc. induction s as [|c s IH]; intros acc Hs; simpl.
  - by rewrite append_string_empty.
  - simpl in Hs. destruct (Ascii.eqb c "."%char) eqn:E.
    + apply Ascii.eqb_eq in E. destruct Hs. by left.
    + rewrite IH by tauto. by rewrite append_string_assoc.
Qed.

Lemma last_segment_from_after_dot (s1 s2 acc : string) :
  last_segment_from (s1 ++ String "."%char s2) acc =
  last_segment_from s2 EmptyString.
Proof.
  revert acc. induction s1 as [|c s1 IH]; intros acc; simpl; [done|].
  destruct (Ascii.eqb c "."%char); apply IH.
Qed.

(** X24: The source format derived in [create_job] (routes/jobs.rs) from a
    file name [base.ext] whose extension [ext] has no dot is [ext] in
    lower case, whatever [base] holds (dots included). *)
Theorem source_format_of_extension (base ext : string) :
  ~ In "."%char (String.list_ascii_of_string ext) ->
  source_format_of (base ++ String "."%char ext) = to_lowercase ext.
Proof.
  intros H. unfold source_format_of, last_segment.
  rewrite last_segment_from_after_dot, last_segment_from_no_dot by done.
  done.
Qed.

Lemma source_format_of_extension_witness :
  ~ In "."%char (String.list_ascii_of_string "GZ") /\
  source_format_of ("archive.tar" ++ String "."%char "GZ") = "gz".
Proof.
  split; [simpl; intros [H|[H|[]]]; discriminate|].
  apply (source_format_of_extension "archive.tar" "GZ").
  simpl. intros [H|[H|[]]]; discriminate.
Defined.

(** X25: For a file name without any dot, the source format derived in
    [create_job] (routes/jobs.rs) is the whole file name in lower case; it
    is empty only for the empty file name, so a non-empty name without
    extension passes the emptiness check. *)
Theorem source_format_of_no_dot (filename : string) :
  ~ In "."%char (String.list_ascii_of_string filename) ->
  source_format_of filename = to_lowercase filename /\
  (filename <> EmptyString -> source_format_of filename <> EmptyString).
Proof.
  intros H. unfold source_format_of, last_segment.
  rewrite last_segment_from_no_dot by done. split; [done|].
  destruct filename as [|c rest]; [done|]. intros _. simpl. discriminate.
Qed.

Lemma source_format_of_no_dot_witness :
  ~ In "."%char (String.list_ascii_of_string "README") /\
  source_format_of "README" = "readme" /\ source_format_of "README" <> "".
Proof.
  assert (H : ~ In "."%char (String.list_ascii_of_string "README")).
  { simpl. intros H. repeat (destruct H as [H|H]; [discriminate|]). done. }
  split; [done|].
  destruct (source_format_of_no_dot "README" H) as [H1 H2].
  split; [exact H1|]. apply H2. discriminate.
Defined.

End HandlersFacts.

(* ================================================================== *)
(** * The job-status handler and the ownership of jobs *)

Module HandlerOwnershipFacts.

Import Dispatcher JobRs Handlers.

(** C2: [get_job_status] (handlers.rs) does not hide another user's job:
    for a job owned by someone else it answers [Forbidden], while for a
    job id missing from the store it answers [JobNotFound], so the caller
    tells the two cases apart. *)
Theorem get_job_status_reveals_foreign_job (jobs missing : JobStore)
    (uid jid : string) (j : Job) :
  jobs !! jid = Some j -> user_id j <> uid -> missing !! jid = None ->
  get_job_status jobs uid jid =
    inr (Forbidden "Not authorized to access this job") /\
  get_job_status missing uid jid = inr (JobNotFound jid) /\
  get_job_status jobs uid jid <> get_job_status missing uid jid.
Proof.
  intros Hj Hne Hm. unfold get_job_status. rewrite Hj, Hm.
  apply String.eqb_neq in Hne. rewrite Hne. simpl.
  split; [done|]. split; [done|]. discriminate.
Qed.

(** Witness for C2: "bob" asks for the job "j1" of "alice", and for the
    same id in an empty store. *)
Lemma get_job_status_reveals_foreign_job_witness :
  get_job_status (<["j1" := Samples.job_at "j1" 0%Z]> ∅) "bob" "j1" <>
  get_job_status ∅ "bob" "j1".
Proof.
  destruct (get_job_status_reveals_foreign_job
              (<["j1" := Samples.job_at "j1" 0%Z]> ∅) ∅ "bob" "j1"
              (Samples.job_at "j1" 0%Z)) as (_ & _ & H).
  - by rewrite lookup_insert_eq.
  - simpl. discriminate.
  - apply lookup_empty.
  - exact H.
Defined.

End HandlerOwnershipFacts.

